(** * Quake 3 Arena log parser: a shallow embedding of [main.py]

    The development follows the class [QuakeLogParser]:
    - text primitives of the Python runtime the parser relies on
      ([str.strip], [sorted], the [re] matcher on the two compiled patterns),
    - the parser object and its methods, as computations in a state and
      exception monad over the object's three mutable attributes,
    - the properties of [parse_log_file] and [_process_kill_event].

    Characters are the code points below 256 (the type [ascii]); Python's
    unbounded [int] is [Z]; the ordered [dict] of games is an association
    list in insertion order; the per-game [defaultdict(int)] of scores is a
    finite map, compared extensionally like Python's [==] on dicts. *)

From stdpp Require Import base option list sorting strings pretty gmap.
From Stdlib Require Import ZArith Ascii String.

Local Open Scope Z_scope.
Local Open Scope string_scope.

(** ** Character classes (Unicode categories restricted to code points < 256) *)

Module Chars.

Definition code (c : ascii) : N := N_of_ascii c.

Definition between (lo hi : N) (c : ascii) : bool :=
  ((lo <=? code c) && (code c <=? hi))%N.

(** [str.isspace], also the class [\s] of a [str] pattern. *)
Definition isspace (c : ascii) : bool :=
  between 9 13 c || between 28 32 c
  || (code c =? 133)%N || (code c =? 160)%N.

(** The class [\d]: decimal digits. *)
Definition isdecimal (c : ascii) : bool := between 48 57 c.

(** [str.isalnum] on the Latin-1 range. *)
Definition isalnum (c : ascii) : bool :=
  isdecimal c || between 65 90 c || between 97 122 c
  || (code c =? 170)%N || between 178 179 c || (code c =? 181)%N
  || between 185 186 c || between 188 190 c
  || between 192 214 c || between 216 246 c || between 248 255 c.

(** The class [\w]. *)
Definition isword (c : ascii) : bool := isalnum c || (code c =? 95)%N.

(** The class [.] without DOTALL: anything but a line feed. *)
Definition isdot (c : ascii) : bool := negb (code c =? 10)%N.

End Chars.

(** ** [str.strip()] *)

Fixpoint lstrip (s : string) : string :=
  match s with
  | String c s' => if Chars.isspace c then lstrip s' else s
  | EmptyString => EmptyString
  end.

Fixpoint rstrip (s : string) : string :=
  match s with
  | String c s' =>
      match rstrip s' with
      | EmptyString => if Chars.isspace c then EmptyString else String c EmptyString
      | t => String c t
      end
  | EmptyString => EmptyString
  end.

Definition strip (s : string) : string := rstrip (lstrip s).

(** [t in s] for strings. *)
Fixpoint contains (t s : string) : bool :=
  String.prefix t s ||
  match s with
  | String _ s' => contains t s'
  | EmptyString => false
  end.

(** ** [sorted] on a list of strings

    Lexicographic order on code points (a proper prefix comes first), which is
    [String.le].  [list(a_set)] enumerates a set in an unspecified order;
    [sorted_perm] below shows that [sorted] does not depend on it. *)

Definition sorted (l : list string) : list string := merge_sort String.le l.

(** ** The fragment of [re] used by the two patterns

    Repetition is only ever applied to a character class, greedy ([*], [+])
    or lazy ([+?]).  The matcher is the usual backtracking one, written with
    a continuation for "the rest of the pattern": alternatives are tried in
    Python's priority order and the first complete match wins. *)

Module Re.

Inductive regex : Type :=
| Bol                                               (* ^ *)
| Lit (t : string)                                  (* literal text *)
| Rep (greedy : bool) (min : nat) (cls : ascii → bool)
| Seq (r1 r2 : regex)
| Group (n : nat) (r : regex).

(** Group spans: group number to (start, end) offsets in the subject. *)
Abbreviation spans := (gmap nat (nat * nat)).

Fixpoint drop_prefix (t s : string) : option string :=
  match t, s with
  | EmptyString, _ => Some s
  | String a t', String b s' => if decide (a = b) then drop_prefix t' s' else None
  | String _ _, EmptyString => None
  end.

Section Matcher.
Context {R : Type}.

(** Greedy: take one more character when possible, give it back when the
    rest of the pattern fails. *)
Fixpoint rep_greedy (cls : ascii → bool) (min pos : nat) (s : string)
    (k : nat → string → option R) : option R :=
  let stop := match min with O => k pos s | S _ => None end in
  match s with
  | String c s' =>
      if cls c then
        match rep_greedy cls (Nat.pred min) (S pos) s' k with
        | Some r => Some r
        | None => stop
        end
      else stop
  | EmptyString => stop
  end.

(** Lazy: try the rest of the pattern first, take one more character when
    that fails. *)
Fixpoint rep_lazy (cls : ascii → bool) (min pos : nat) (s : string)
    (k : nat → string → option R) : option R :=
  let more :=
    match s with
    | String c s' =>
        if cls c then rep_lazy cls (Nat.pred min) (S pos) s' k else None
    | EmptyString => None
    end in
  match min with
  | O => match k pos s with Some r => Some r | None => more end
  | S _ => more
  end.

Fixpoint run (r : regex) (pos : nat) (s : string) (g : spans)
    (k : nat → string → spans → option R) : option R :=
  match r with
  | Bol => match pos with O => k pos s g | S _ => None end
  | Lit t =>
      match drop_prefix t s with
      | Some s' => k (pos + String.length t)%nat s' g
      | None => None
      end
  | Rep greedy min cls =>
      (if greedy then rep_greedy else rep_lazy) cls min pos s
        (λ p s', k p s' g)
  | Seq r1 r2 => run r1 pos s g (λ p s' g', run r2 p s' g' k)
  | Group n r1 => run r1 pos s g (λ p s' g', k p s' (<[n := (pos, p)]> g'))
  end.
End Matcher.

(** A match object: the subject string and the span of every group that
    took part in the match (group 0 is the whole match). *)
Record Match : Type := MkMatch { m_string : string; m_spans : spans }.

Definition match_at (r : regex) (subject : string) (pos : nat) (s : string)
    : option Match :=
  run r pos s ∅ (λ p _ g, Some (MkMatch subject (<[O := (pos, p)]> g))).

(** [pattern.match(subject)]: anchored at offset 0. *)
Definition re_match (r : regex) (subject : string) : option Match :=
  match_at r subject 0 subject.

Fixpoint search_from (r : regex) (subject : string) (pos : nat) (s : string)
    : option Match :=
  match match_at r subject pos s with
  | Some m => Some m
  | None =>
      match s with
      | String _ s' => search_from r subject (S pos) s'
      | EmptyString => None
      end
  end.

(** [pattern.search(subject)]: leftmost offset at which the pattern matches. *)
Definition re_search (r : regex) (subject : string) : option Match :=
  search_from r subject 0 subject.

(** [m.group(i)]; [None] when group [i] did not take part. *)
Definition group (m : Match) (i : nat) : option string :=
  match m_spans m !! i with
  | Some (b, e) => Some (String.substring b (e - b) (m_string m))
  | None => None
  end.

End Re.

Import Re.

Declare Scope regex_scope.
Delimit Scope regex_scope with re.
Infix "⋅" := Seq (at level 40, left associativity) : regex_scope.

(** [\s*], [\s+], [\d+], [\w+], [.+?] *)
Definition ws_star : regex := Rep true 0 Chars.isspace.
Definition ws_plus : regex := Rep true 1 Chars.isspace.
Definition digits : regex := Rep true 1 Chars.isdecimal.
Definition word_plus : regex := Rep true 1 Chars.isword.
Definition any_lazy : regex := Rep false 1 Chars.isdot.

(** [r"^\s*\d+:\d+\s+Kill:\s+(\d+)\s+(\d+)\s+(\d+):\s+(.+?)\s+killed\s+(.+?)\s+by\s+(MOD_\w+)"] *)
Definition kill_pattern : regex :=
  (Bol ⋅ ws_star ⋅ digits ⋅ Lit ":" ⋅ digits ⋅ ws_plus ⋅ Lit "Kill:" ⋅ ws_plus
   ⋅ Group 1 digits ⋅ ws_plus ⋅ Group 2 digits ⋅ ws_plus ⋅ Group 3 digits
   ⋅ Lit ":" ⋅ ws_plus ⋅ Group 4 any_lazy ⋅ ws_plus ⋅ Lit "killed" ⋅ ws_plus
   ⋅ Group 5 any_lazy ⋅ ws_plus ⋅ Lit "by" ⋅ ws_plus
   ⋅ Group 6 (Lit "MOD_" ⋅ word_plus))%re.

(** [r"InitGame:"] *)
Definition init_game_pattern : regex := Lit "InitGame:".

(** ** The parser object *)

(** One entry of [self.games]: the dict with keys ["total_kills"],
    ["players"] and ["kills"]. *)
Record Game : Type := MkGame {
  total_kills : Z;
  players : list string;
  kills : gmap string Z;
}.

(** An insertion-ordered [dict] with string keys. *)
Module Dict.
Section Dict.
Context {V : Type}.

Fixpoint get (k : string) (d : list (string * V)) : option V :=
  match d with
  | [] => None
  | (k', v) :: d' => if decide (k = k') then Some v else get k d'
  end.

(** [d[k] = v]: an existing key keeps its place, a new key goes last. *)
Fixpoint set (k : string) (v : V) (d : list (string * V)) : list (string * V) :=
  match d with
  | [] => [(k, v)]
  | (k', v') :: d' =>
      if decide (k = k') then (k, v) :: d' else (k', v') :: set k v d'
  end.

Definition keys (d : list (string * V)) : list string := d.*1.
Definition values (d : list (string * V)) : list V := d.*2.
End Dict.
End Dict.

Abbreviation games_dict := (list (string * Game)).

(** The mutable attributes of a [QuakeLogParser]; the two compiled patterns
    are the constants [kill_pattern] and [init_game_pattern]. *)
Record QuakeLogParser : Type := MkParser {
  games : games_dict;
  current_game_id : option string;
  game_counter : Z;
}.

Definition set_games (v : games_dict) (self : QuakeLogParser) : QuakeLogParser :=
  MkParser v (current_game_id self) (game_counter self).
Definition set_current_game_id (v : option string) (self : QuakeLogParser) : QuakeLogParser :=
  MkParser (games self) v (game_counter self).
Definition set_game_counter (v : Z) (self : QuakeLogParser) : QuakeLogParser :=
  MkParser (games self) (current_game_id self) v.

(** [QuakeLogParser()] *)
Definition __init__ : QuakeLogParser := MkParser [] None 0.

(** ** Methods: state of [self] plus exceptions *)

Inductive exn : Type :=
| FileNotFoundError (msg : string)
| IsADirectoryError (path : string)
| KeyError (key : option string)
| AttributeError (msg : string)
| UnicodeDecodeError (codec : string).

Inductive outcome (A : Type) : Type :=
| Return (a : A)
| Raise (e : exn).
Arguments Return {A} a.
Arguments Raise {A} e.

(** A method body: runs on [self], returns or raises, leaves [self] updated. *)
Definition M (A : Type) : Type := QuakeLogParser → outcome A * QuakeLogParser.

Definition ret {A} (a : A) : M A := λ self, (Return a, self).
Definition raise {A} (e : exn) : M A := λ self, (Raise e, self).
Definition bind {A B} (c : M A) (f : A → M B) : M B :=
  λ self,
    match c self with
    | (Return a, self') => f a self'
    | (Raise e, self') => (Raise e, self')
    end.
Definition gets {A} (f : QuakeLogParser → A) : M A := λ self, (Return (f self), self).
Definition modify (f : QuakeLogParser → QuakeLogParser) : M unit :=
  λ self, (Return tt, f self).

#[export] Instance M_ret : MRet M := @ret.
#[export] Instance M_bind : MBind M := λ A B f c, bind c f.

(** [for x in l: body(x)] *)
Fixpoint for_each {A} (l : list A) (body : A → M unit) : M unit :=
  match l with
  | [] => ret tt
  | x :: l' => body x ;; for_each l' body
  end.

(** [f"game_{n}"] *)
Definition game_id (n : Z) : string := "game_" ++ pretty n.

Definition new_game : Game := MkGame 0 [] ∅.

Definition _start_new_game : M unit :=
  modify (λ self, set_game_counter (game_counter self + 1) self) ;;
  counter ← gets game_counter;
  let id := game_id counter in
  modify (set_current_game_id (Some id)) ;;
  modify (λ self, set_games (Dict.set id new_game (games self)) self).

(** [self.games[key]] *)
Definition games_getitem (key : string) : M Game :=
  λ self,
    match Dict.get key (games self) with
    | Some g => (Return g, self)
    | None => (Raise (KeyError (Some key)), self)
    end.

(** [match.group(i).strip()] *)
Definition group_strip (m : Match) (i : nat) : M string :=
  match group m i with
  | Some s => ret (strip s)
  | None => raise (AttributeError "'NoneType' object has no attribute 'strip'")
  end.

(** [d[name] += delta] on a [defaultdict(int)]: a missing entry starts at 0. *)
Definition defaultdict_add (name : string) (delta : Z) (d : gmap string Z) : gmap string Z :=
  <[name := default 0 (d !! name) + delta]> d.

Definition world : string := "<world>".

(** The game object is mutated in place; here the updated object is stored
    back under its key, which keeps its position in [self.games]. *)
Definition _process_kill_event (m : Match) : M unit :=
  cur ← gets current_game_id;
  match cur with None => _start_new_game | Some _ => ret tt end ;;
  let killer_id := group m 1 in
  let victim_id := group m 2 in
  let weapon_id := group m 3 in
  killer_name ← group_strip m 4;
  victim_name ← group_strip m 5;
  weapon ← group_strip m 6;
  key ← gets current_game_id;
  match key with
  | None => raise (KeyError None)
  | Some id =>
      current_game ← games_getitem id;
      let total := total_kills current_game + 1 in
      let scores :=
        if decide (killer_name = world) then
          if decide (victim_name ≠ world)
          then defaultdict_add victim_name (-1) (kills current_game)
          else kills current_game
        else defaultdict_add killer_name 1 (kills current_game) in
      let players_set : gset string := ∅ in
      let players_set :=
        if decide (killer_name ≠ world) then players_set ∪ {[killer_name]}
        else players_set in
      let players_set :=
        if decide (victim_name ≠ world) then players_set ∪ {[victim_name]}
        else players_set in
      let existing_players : gset string := list_to_set (players current_game) in
      let current_game :=
        MkGame total (sorted (elements (existing_players ∪ players_set))) scores in
      modify (λ self, set_games (Dict.set id current_game (games self)) self)
  end.

(** ** The file system seen by [os.path.exists] and [open]

    A path names
    - a file whose bytes are UTF-8 text, given by the lines that iterating
      over it yields (with or without their line terminator: [strip]
      removes it);
    - a directory, which exists but which [open] refuses;
    - a file holding bytes that are not UTF-8: [open] succeeds, as nothing
      is decoded yet; iterating over the file yields the lines decoded
      before the offending bytes are reached, here [lines], and then raises
      [UnicodeDecodeError]. *)

Inductive fs_node : Type :=
| RegularFile (lines : list string)
| Directory
| UndecodableFile (lines : list string).

Abbreviation filesystem := (gmap string fs_node).

Definition path_exists (fs : filesystem) (path : string) : bool :=
  bool_decide (is_Some (fs !! path)).

(** The file object that [open] returns, as the loop sees it: the lines it
    yields, and whether reading on after them fails to decode. *)
Record TextIOWrapper : Type := MkTextIOWrapper {
  decoded_lines : list string;
  undecodable_rest : bool
}.

(** [open(path, "r", encoding="utf-8")] *)
Definition open (fs : filesystem) (path : string) : M TextIOWrapper :=
  match fs !! path with
  | Some (RegularFile lines) => ret (MkTextIOWrapper lines false)
  | Some (UndecodableFile lines) => ret (MkTextIOWrapper lines true)
  | Some Directory => raise (IsADirectoryError path)
  | None => raise (FileNotFoundError path)
  end.

(** [for line in file: body(line)]: the body runs on every line the file
    yields; where the rest of the file does not decode, the iteration then
    raises, and the statements after the loop are not reached. *)
Definition for_each_line (file : TextIOWrapper) (body : string → M unit) : M unit :=
  for_each (decoded_lines file) body ;;
  if undecodable_rest file then raise (UnicodeDecodeError "utf-8") else ret tt.

(** The body of the [for] loop of [parse_log_file]; the line number that
    [enumerate] supplies is not used. *)
Definition parse_line (line : string) : M unit :=
  let line := strip line in
  if decide (line = "") then ret tt
  else if re_search init_game_pattern line is Some _ then _start_new_game
  else
    match re_match kill_pattern line with
    | Some kill_match => _process_kill_event kill_match
    | None => ret tt
    end.

Definition parse_log_file (fs : filesystem) (file_path : string) : M games_dict :=
  if negb (path_exists fs file_path)
  then raise (FileNotFoundError ("Log file not found: " ++ file_path))
  else
    modify (set_games []) ;;
    modify (set_current_game_id None) ;;
    modify (set_game_counter 0) ;;
    file ← open fs file_path;
    for_each_line file parse_line ;;
    gets games.

(** [_finalize_games]: [dict(game_data["kills"])] is a plain dict with the
    entries of the [defaultdict].  [Game] records the entries of a score
    mapping and not the class of the mapping, so the two are the same
    [gmap]: what the method returns through [get_formatted_results] is
    modelled, the loss of the default value is not.  The state after
    [_finalize_games] therefore stands for the parser only as far as
    [parse_log_file] and [get_formatted_results] read it; nothing below is
    stated about [_process_kill_event] on a finalized game, where a plain
    dict raises [KeyError] for a name without an entry. *)
Definition _finalize_games : M unit :=
  items ← gets games;
  for_each items (λ item,
    let game_id := item.1 in
    let game_data := item.2 in
    game ← games_getitem game_id;
    modify (λ self,
      set_games
        (Dict.set game_id
           (MkGame (total_kills game) (players game) (kills game_data))
           (games self))
        self)).

Definition get_formatted_results : M games_dict :=
  _finalize_games ;; gets games.

(** ** The function [main] of [main.py]

    The values [main] computes for its summary, as functions of
    [formatted_results], and its exit status.  The text it prints is not
    modelled, and standard output is taken to accept it. *)

(** [os.path.join("log.txt")] *)
Definition log_file_path : string := "log.txt".

(** [len(formatted_results)] *)
Definition total_games (formatted_results : games_dict) : Z :=
  Z.of_nat (List.length formatted_results).

(** [sum(game["total_kills"] for game in formatted_results.values())] *)
Definition total_kills_all_games (formatted_results : games_dict) : Z :=
  foldl (λ acc game, acc + total_kills game) 0 (Dict.values formatted_results).

(** [all_players], after the loop of [all_players.update(game["players"])]. *)
Definition all_players (formatted_results : games_dict) : gset string :=
  foldl (λ acc game, acc ∪ list_to_set (players game)) ∅
    (Dict.values formatted_results).

(** [sorted(list(all_players))], as printed. *)
Definition all_players_sorted (formatted_results : games_dict) : list string :=
  sorted (elements (all_players formatted_results)).

(** [player_total_kills], after the two nested loops; [items()] of a game's
    scores is enumerated by [map_to_list]. *)
Definition player_total_kills (formatted_results : games_dict) : gmap string Z :=
  foldl
    (λ acc game,
       foldl (λ acc item, defaultdict_add item.1 item.2 acc) acc
         (map_to_list (kills game)))
    ∅ (Dict.values formatted_results).

(** [sorted(items, key=lambda x: x[1], reverse=True)]: a stable sort by
    decreasing score; items with equal scores keep their order. *)
Fixpoint insert_by_score (x : string * Z) (l : list (string * Z)) : list (string * Z) :=
  match l with
  | [] => [x]
  | y :: l' => if decide (x.2 < y.2) then y :: insert_by_score x l' else x :: l
  end.

Definition sorted_by_score (items : list (string * Z)) : list (string * Z) :=
  foldr insert_by_score [] items.

(** [top_players[:5]], for [items] the entries of [player_total_kills] in
    the order [items()] yields them. *)
Definition top_players (items : list (string * Z)) : list (string * Z) :=
  take 5 (sorted_by_score items).

(** The exit status of [main]: both [except] clauses return 1. *)
Definition main (fs : filesystem) : Z :=
  let parser := __init__ in
  match parse_log_file fs log_file_path parser with
  | (Return results, parser) =>
      match get_formatted_results parser with
      | (Return formatted_results, _) => 0
      | (Raise _, _) => 1
      end
  | (Raise (FileNotFoundError _), _) => 1
  | (Raise _, _) => 1
  end.

(** ** The function [main] of [test.py]

    Both [run_parser] and [run_tests] are [main] of [main.py];
    [fs1] and [fs2] are the file system at the first and at the second call. *)
Module Test.
Definition main (fs1 fs2 : filesystem) : Z :=
  let parser_result := main fs1 in
  if decide (parser_result ≠ 0) then 1
  else
    let test_result := main fs2 in
    Z.max parser_result test_result.
End Test.

(** * Vocabulary for the properties

    Names for what the methods compute and for the states they run on, and
    sample logs; none of this is part of the parser. *)

Fixpoint all_chars (p : ascii → bool) (s : string) : bool :=
  match s with
  | String c s' => p c && all_chars p s'
  | EmptyString => true
  end.

Definition no_space (t : string) : bool :=
  all_chars (λ c, negb (Chars.isspace c)) t.

(** The group numbers of a pattern. *)
Fixpoint groups (r : regex) : gset nat :=
  match r with
  | Bol | Lit _ | Rep _ _ _ => ∅
  | Seq r1 r2 => groups r1 ∪ groups r2
  | Group n r1 => {[n]} ∪ groups r1
  end.

(** The local variables [killer_name], [victim_name] and [weapon] of
    [_process_kill_event], defined when the group took part in the match. *)
Definition killer_name (m : Match) : option string := strip <$> group m 4.

Definition victim_name (m : Match) : option string := strip <$> group m 5.

Definition weapon (m : Match) : option string := strip <$> group m 6.

(** A match object on which [_process_kill_event] finds its three names. *)
Definition kill_event (m : Match) : Prop :=
  is_Some (killer_name m) ∧ is_Some (victim_name m) ∧ is_Some (weapon m).

(** The parser once "if no game has been started, create one" has run. *)
Definition opened (self : QuakeLogParser) : QuakeLogParser :=
  match current_game_id self with
  | None => (_start_new_game self).2
  | Some _ => self
  end.

(** What [_process_kill_event] makes of [current_game], for given names. *)
Definition kill_update (killer_name victim_name : string) (current_game : Game) : Game :=
  let total := total_kills current_game + 1 in
  let scores :=
    if decide (killer_name = world) then
      if decide (victim_name ≠ world)
      then defaultdict_add victim_name (-1) (kills current_game)
      else kills current_game
    else defaultdict_add killer_name 1 (kills current_game) in
  let players_set : gset string := ∅ in
  let players_set :=
    if decide (killer_name ≠ world) then players_set ∪ {[killer_name]}
    else players_set in
  let players_set :=
    if decide (victim_name ≠ world) then players_set ∪ {[victim_name]}
    else players_set in
  let existing_players : gset string := list_to_set (players current_game) in
  MkGame total (sorted (elements (existing_players ∪ players_set))) scores.

(** The effect of one kill event on the game it is attributed to. *)
Definition event_update (g : Game) (m : Match) : Game :=
  match killer_name m, victim_name m with
  | Some A, Some B => kill_update A B g
  | _, _ => g
  end.

(** The three ways the loop body treats a line. *)
Inductive line_kind : Type :=
| Ignored
| MatchStart
| KillEvent (m : Match).

Definition classify (line : string) : line_kind :=
  if contains "InitGame:" line then MatchStart
  else
    match re_match kill_pattern (strip line) with
    | Some m => KillEvent m
    | None => Ignored
    end.

(** Lines handed to [_start_new_game], to [_process_kill_event], to neither. *)
Definition is_marker (line : string) : bool := contains "InitGame:" line.

Definition is_kill_line (line : string) : bool :=
  negb (is_marker line)
  && bool_decide (is_Some (re_match kill_pattern (strip line))).

Definition is_ignored (line : string) : bool :=
  negb (is_marker line)
  && bool_decide (re_match kill_pattern (strip line) = None).

(** The current game, when there is one, is in the dictionary
    (so that [self.games[self.current_game_id]] does not raise). *)
Definition wf (self : QuakeLogParser) : Prop :=
  ∀ id, current_game_id self = Some id → is_Some (Dict.get id (games self)).

(** [self.games[self.current_game_id]], when there is one. *)
Definition current_game (self : QuakeLogParser) : option Game :=
  id ← current_game_id self; Dict.get id (games self).

(** Every name with a score is in [players]. *)
Definition scored_are_listed (g : Game) : Prop :=
  ∀ name, is_Some (kills g !! name) → name ∈ players g.

Definition game_ok (g : Game) : Prop :=
  (world ∉ players g) ∧ scored_are_listed g.

(** What holds of the parser between two lines of a parse. *)

Record inv (self : QuakeLogParser) : Prop := MkInv {
  inv_counter : (0 ≤ game_counter self)%Z;
  inv_keys : Dict.keys (games self) = game_id <$> seqZ 1 (game_counter self);
  inv_current :
    current_game_id self =
    if decide (game_counter self = 0) then None
    else Some (game_id (game_counter self));
  inv_games : Forall game_ok (Dict.values (games self));
}.

(** The state in which the loop of [parse_log_file] leaves the parser. *)
Definition run_lines (lines : list string) : QuakeLogParser :=
  (for_each lines parse_line (MkParser [] None 0)).2.

(** What the first game holds once the kill [A] on [B] has been put in it. *)
Definition holds_kill (A B : string) (g : Game) : Prop :=
  (1 ≤ total_kills g)%Z
  ∧ ∀ name, name ≠ world → name = A ∨ name = B → name ∈ players g.

(** ** Sample lines and logs *)

(** [kill_pattern.match(line.strip())] for a line known to match. *)
Definition match_of (line : string) : Match :=
  default (MkMatch "" ∅) (re_match kill_pattern (strip line)).

Definition alice_bob_line : string :=
  " 0:05 Kill: 1 2 3: Alice killed Bob by MOD_ROCKET".

Definition alice_world_line : string :=
  " 1:08 Kill: 2 1022 22: Alice killed <world> by MOD_TRIGGER_HURT".

Definition bob_alice_line : string :=
  " 0:07 Kill: 2 1 7: Bob killed Alice by MOD_RAILGUN".

Definition alice_alice_line : string :=
  " 0:09 Kill: 1 1 7: Alice killed Alice by MOD_ROCKET_SPLASH".

Definition world_bob_line : string :=
  " 0:10 Kill: 1022 2 19: <world> killed Bob by MOD_FALLING".

Definition one_marker_fs : filesystem :=
  {[ "log.txt" := RegularFile ["  0:00 InitGame: \sv_hostname\Code Miner Server"] ]}.

Definition markers_log : list string :=
  [ "  0:00 InitGame: \sv_floodProtect\1"; "";
    "  0:25 ClientConnect: 2";
    "  1:47 InitGame: \sv_floodProtect\1";
    " 20:37 ShutdownGame:" ].

Definition noise_log : list string :=
  [ "  0:25 ClientConnect: 2"; "   "; "";
    " 20:37 ------------------------------------------------------------";
    "  0:05 Kill: 1 2 3: Alice shot Bob by MOD_ROCKET" ].

Definition example_log : list string :=
  [ "  0:00 InitGame: \sv_floodProtect\1\sv_maxPing\0";
    "  0:05 Kill: 1 2 3: Alice killed Bob by MOD_ROCKET";
    "  0:10 Kill: 3 2 4: <world> killed Bob by MOD_FALLING";
    "  0:15 InitGame: \sv_floodProtect\1\sv_maxPing\0";
    "  0:20 Kill: 5 6 7: Carol killed Dave by MOD_SHOTGUN" ].

Definition example_fs : filesystem :=
  {[ "log.txt" := RegularFile example_log; "logs" := Directory ]}.

(** A file that is not UTF-8 from its first byte on (the one byte 0xFF,
    say): no line is yielded before the iteration raises. *)
Definition undecodable_fs : filesystem :=
  {[ "log.txt" := UndecodableFile [] ]}.

Definition headless_log_prefix : list string := [""; "  0:25 ClientConnect: 2"].

Definition headless_log_rest : list string :=
  [ world_bob_line; "  1:47 InitGame: \sv_floodProtect\1"; bob_alice_line ].

(** ** The parse as a fold over a list of games *)

(** [f] applied to the last element. *)
Fixpoint update_last (f : Game → Game) (vs : list Game) : list Game :=
  match vs with
  | [] => []
  | [g] => [f g]
  | g :: vs' => g :: update_last f vs'
  end.

(** What one line does to the games, in order: a marker appends an empty
    game, a kill event updates the last game, after appending one when there
    is none. *)
Definition line_step (vs : list Game) (line : string) : list Game :=
  match classify line with
  | Ignored => vs
  | MatchStart => vs ++ [new_game]
  | KillEvent m =>
      update_last (λ g, event_update g m)
        (match vs with [] => [new_game] | _ => vs end)
  end.

(** The first line that is not ignored is a kill event. *)
Fixpoint starts_with_kill (lines : list string) : bool :=
  match lines with
  | [] => false
  | line :: lines' =>
      if is_marker line then false
      else if is_kill_line line then true
      else starts_with_kill lines'
  end.

(** The number of matches a log starts: one for each marker, and one more
    when a kill event comes before the first marker. *)
Definition match_starts (lines : list string) : nat :=
  (List.length (filter (λ line, is_marker line) lines)
   + if starts_with_kill lines then 1 else 0)%nat.

(** A kill line in the usual layout, from its fields. *)
Definition kill_line (ts1 ts2 killer_id victim_id weapon_id A B W : string) : string :=
  ts1 ++ ":" ++ ts2 ++ " " ++ "Kill:" ++ " " ++ killer_id ++ " " ++ victim_id
  ++ " " ++ weapon_id ++ ":" ++ " " ++ A ++ " " ++ "killed" ++ " " ++ B
  ++ " " ++ "by" ++ " " ++ "MOD_" ++ W.

(** [s] is empty or starts with a character outside [cls]. *)
Definition stops (cls : ascii → bool) (s : string) : Prop :=
  match s with
  | EmptyString => True
  | String c _ => cls c = false
  end.

(** The shapes of the fields of a kill line. *)
Definition nonempty (s : string) : bool :=
  match s with EmptyString => false | String _ _ => true end.

Definition is_digits (s : string) : bool :=
  nonempty s && all_chars Chars.isdecimal s.

(** No part of [s] that follows a white space character starts with [t]. *)
Fixpoint no_word (t s : string) : bool :=
  match s with
  | EmptyString => true
  | String c s' =>
      (if Chars.isspace c then negb (String.prefix t s') else true)
      && no_word t s'
  end.

(** A name the pattern can delimit when the word [t] follows it: not empty,
    on one line, without white space at either end, and without the word
    [t] after a white space inside it. *)
Definition is_name (t s : string) : bool :=
  nonempty s && all_chars Chars.isdot s && String.eqb (strip s) s
  && no_word t s.

Definition is_word (s : string) : bool := nonempty s && all_chars Chars.isword s.

(** The order of [sorted_by_score]. *)
Definition score_ge (x y : string * Z) : Prop := (y.2 ≤ x.2)%Z.

(** ** More sample lines and logs *)

Definition marker_in_kill_line : string :=
  " 1:00 Kill: 2 3 7: InitGame: killed Bob by MOD_ROCKET".

Definition line_end : string :=
  String (ascii_of_nat 13) (String (ascii_of_nat 10) "").

Definition headless_log : list string :=
  headless_log_prefix ++ alice_bob_line :: headless_log_rest.

Definition split_fs : filesystem :=
  {[ "whole.log" := RegularFile (take 3 example_log ++ drop 3 example_log);
     "first.log" := RegularFile (take 3 example_log);
     "second.log" := RegularFile (drop 3 example_log) ]}.

Definition noisy_log : list string := noise_log ++ example_log.

Definition noisy_fs : filesystem :=
  {[ "noisy.log" := RegularFile noisy_log;
     "clean.log" :=
       RegularFile (filter (λ line, is_ignored line = false) noisy_log) ]}.

(** * Facts about the text primitives *)

Section TextFacts.

Lemma prefix_empty_r t : String.prefix t "" = true → t = "".
Proof. by destruct t. Qed.

Lemma drop_prefix_is_Some t s :
  is_Some (drop_prefix t s) ↔ String.prefix t s = true.
Proof.
  revert s. induction t as [|a t IH]; intros s; simpl.
  - destruct s; split; eauto.
  - destruct s as [|b s]; simpl.
    + split; [intros [? ?]|]; done.
    + destruct (decide (a = b)) as [Heq|Hne], (ascii_dec a b) as [?|?];
        try done; try apply IH.
Qed.

Lemma match_at_lit t subject pos s :
  is_Some (match_at (Lit t) subject pos s) ↔ String.prefix t s = true.
Proof.
  rewrite <-drop_prefix_is_Some. unfold match_at. cbn [run].
  destruct (drop_prefix t s); split; intros [? ?]; by eauto.
Qed.

Lemma search_from_lit t subject pos s :
  is_Some (search_from (Lit t) subject pos s) ↔ contains t s = true.
Proof.
  revert pos. induction s as [|c s IH]; intros pos; cbn [search_from contains];
    pose proof (match_at_lit t subject pos) as Hm.
  - specialize (Hm ""). rewrite orb_false_r, <-Hm.
    by destruct (match_at (Lit t) subject pos "").
  - specialize (Hm (String c s)). rewrite orb_true_iff, <-Hm, <-(IH (S pos)).
    destruct (match_at (Lit t) subject pos (String c s)) as [m|].
    + split; [by left|by exists m].
    + split; [by right|]. by intros [[? ?]|?].
Qed.

Lemma prefix_space_head c t a s :
  Chars.isspace c = false → Chars.isspace a = true →
  String.prefix (String c t) (String a s) = false.
Proof. intros Hc Ha. simpl. destruct (ascii_dec c a); [congruence|done]. Qed.

Lemma lstrip_contains c t s :
  Chars.isspace c = false →
  contains (String c t) (lstrip s) = contains (String c t) s.
Proof.
  intros Hc. induction s as [|a s IH]; [done|].
  cbn [lstrip]. destruct (Chars.isspace a) eqn:Ha; [|done].
  rewrite IH. cbn [contains]. by rewrite prefix_space_head.
Qed.

Lemma rstrip_prefix t s :
  no_space t = true → String.prefix t (rstrip s) = String.prefix t s.
Proof.
  revert t. induction s as [|a s IH]; intros t Ht; [done|].
  destruct t as [|c t]; [by destruct (rstrip (String a s))|].
  apply andb_prop in Ht as [Hc%negb_true_iff Ht].
  specialize (IH t Ht). cbn [rstrip].
  destruct (rstrip s) as [|x y] eqn:E.
  - destruct (Chars.isspace a) eqn:Ha.
    + by rewrite prefix_space_head.
    + simpl in *. destruct (ascii_dec c a); [|done]. by rewrite <-IH.
  - simpl in *. destruct (ascii_dec c a); [|done]. by rewrite <-IH.
Qed.

Lemma rstrip_contains t s :
  no_space t = true → contains t (rstrip s) = contains t s.
Proof.
  intros Ht. induction s as [|a s IH]; [done|].
  cbn [contains]. rewrite <-IH, <-(rstrip_prefix t (String a s)) by done.
  cbn [rstrip]. destruct (rstrip s) as [|x y] eqn:E; [|done].
  destruct (Chars.isspace a); simpl; [|done].
  by destruct t.
Qed.

Lemma strip_contains c t s :
  no_space (String c t) = true →
  contains (String c t) (strip s) = contains (String c t) s.
Proof.
  intros Ht. unfold strip. rewrite rstrip_contains by done.
  apply lstrip_contains.
  by apply andb_prop in Ht as [Hc%negb_true_iff _].
Qed.

(** [init_game_pattern.search(line.strip())] succeeds exactly on the lines
    that contain the text [InitGame:]. *)
Lemma search_init_game line :
  is_Some (re_search init_game_pattern (strip line))
  ↔ contains "InitGame:" line = true.
Proof.
  unfold re_search, init_game_pattern. rewrite search_from_lit.
  by rewrite strip_contains.
Qed.

(** [sorted] is a function of the elements, whatever order they come in. *)
Lemma sorted_perm l1 l2 : l1 ≡ₚ l2 → sorted l1 = sorted l2.
Proof.
  intros Hp. apply (Sorted_unique String.le).
  - apply Sorted_merge_sort, _.
  - apply Sorted_merge_sort, _.
  - unfold sorted. by rewrite !merge_sort_Permutation.
Qed.

Lemma sorted_Sorted l : Sorted String.le (sorted l).
Proof. apply Sorted_merge_sort, _. Qed.

Lemma elem_of_sorted x l : x ∈ sorted l ↔ x ∈ l.
Proof. unfold sorted. by rewrite merge_sort_Permutation. Qed.

End TextFacts.

(** * Facts about the matcher: every group of a pattern has a span *)

Section MatcherFacts.
Context {R : Type}.

Lemma rep_greedy_inv cls min pos s (k : nat → string → option R) res :
  rep_greedy cls min pos s k = Some res → ∃ p s', k p s' = Some res.
Proof.
  revert min pos. induction s as [|c s IH]; intros min pos; simpl.
  - destruct min; [eauto|done].
  - destruct (cls c).
    + destruct (rep_greedy cls (Nat.pred min) (S pos) s k) eqn:E.
      * intros [= ->]. eauto.
      * destruct min; [eauto|done].
    + destruct min; [eauto|done].
Qed.

Lemma rep_lazy_inv cls min pos s (k : nat → string → option R) res :
  rep_lazy cls min pos s k = Some res → ∃ p s', k p s' = Some res.
Proof.
  revert min pos. induction s as [|c s IH]; intros min pos; simpl.
  - destruct min; [|done]. destruct (k pos "") eqn:E; [|done].
    intros [= ->]. eauto.
  - destruct min.
    + destruct (k pos (String c s)) eqn:E; [intros [= ->]; eauto|].
      destruct (cls c); [eauto|done].
    + destruct (cls c); [eauto|done].
Qed.

Lemma run_inv r pos s g (k : nat → string → spans → option R) res :
  run r pos s g k = Some res →
  ∃ p s' g', k p s' g' = Some res ∧ groups r ∪ dom g ⊆ dom g'.
Proof.
  revert pos s g k. induction r as [|t|greedy min cls|r1 IH1 r2 IH2|n r1 IH1];
    intros pos s g k; simpl.
  - destruct pos; [|done]. intros ?. exists 0%nat, s, g. split; [done|set_solver].
  - destruct (drop_prefix t s); [|done]. intros ?.
    eexists _, _, g. split; [done|set_solver].
  - intros H. assert (∃ p s', k p s' g = Some res) as (p & s' & ?).
    { destruct greedy; [eapply rep_greedy_inv|eapply rep_lazy_inv]; exact H. }
    exists p, s', g. split; [done|set_solver].
  - intros (p1 & s1 & g1 & H1 & ?)%IH1.
    apply IH2 in H1 as (p2 & s2 & g2 & ? & ?).
    exists p2, s2, g2. split; [done|set_solver].
  - intros (p1 & s1 & g1 & H1 & ?)%IH1.
    eexists _, _, _. split; [exact H1|]. rewrite dom_insert_L. set_solver.
Qed.

End MatcherFacts.

Lemma re_match_groups r subject m i :
  re_match r subject = Some m → i ∈ groups r → is_Some (group m i).
Proof.
  unfold re_match, match_at.
  intros (p & s' & g' & [= <-] & Hg)%run_inv Hi.
  unfold group. simpl.
  assert (i ∈ dom (<[0%nat := (0%nat, p)]> g')) as [[b e] ->]%elem_of_dom; [|done].
  rewrite dom_insert_L. set_solver.
Qed.

(** * The methods in closed form *)

Lemma kill_pattern_kill_event line m :
  re_match kill_pattern line = Some m → kill_event m.
Proof.
  intros Hm. unfold kill_event, killer_name, victim_name, weapon.
  rewrite !fmap_is_Some.
  split_and!; apply (re_match_groups _ _ _ _ Hm); vm_compute; set_solver.
Qed.

Lemma start_new_game_eq self :
  _start_new_game self =
  (Return tt,
   MkParser (Dict.set (game_id (game_counter self + 1)) new_game (games self))
     (Some (game_id (game_counter self + 1))) (game_counter self + 1)).
Proof. reflexivity. Qed.

Lemma process_kill_event_eq m self A B id g :
  killer_name m = Some A → victim_name m = Some B → is_Some (weapon m) →
  current_game_id (opened self) = Some id →
  Dict.get id (games (opened self)) = Some g →
  _process_kill_event m self =
  (Return tt,
   set_games (Dict.set id (kill_update A B g) (games (opened self))) (opened self)).
Proof.
  unfold killer_name, victim_name, weapon.
  intros (a & Ha & ->)%fmap_Some (b & Hb & ->)%fmap_Some
    [? (w & Hw & _)%fmap_Some] Hid Hg.
  unfold _process_kill_event, mbind, M_bind, bind, group_strip, gets.
  assert ((match current_game_id self with
           | None => _start_new_game
           | Some _ => ret tt
           end) self = (Return tt, opened self)) as ->.
  { unfold opened. by destruct (current_game_id self). }
  rewrite Ha, Hb, Hw. simpl. rewrite Hid. unfold games_getitem. rewrite Hg.
  reflexivity.
Qed.

(** * The ordered dictionary *)

Section DictFacts.
Context {V : Type}.
Implicit Types (d : list (string * V)) (k : string) (v : V).

Lemma get_set_eq k v d : Dict.get k (Dict.set k v d) = Some v.
Proof.
  induction d as [|[k' v'] d IH]; simpl; [by rewrite decide_True|].
  destruct (decide (k = k')) as [->|?]; simpl.
  - by rewrite decide_True.
  - by rewrite decide_False.
Qed.

Lemma get_set_ne k k' v d :
  k ≠ k' → Dict.get k' (Dict.set k v d) = Dict.get k' d.
Proof.
  intros Hne. induction d as [|[k1 v1] d IH]; simpl.
  - by rewrite decide_False.
  - destruct (decide (k = k1)) as [->|?]; simpl.
    + by rewrite !decide_False.
    + by rewrite IH.
Qed.

Lemma get_is_Some k d : is_Some (Dict.get k d) ↔ k ∈ Dict.keys d.
Proof.
  unfold Dict.keys. induction d as [|[k' v'] d IH]; simpl.
  - rewrite elem_of_nil. split; [by intros [? ?]|done].
  - rewrite elem_of_cons. destruct (decide (k = k')) as [->|?].
    + split; eauto.
    + rewrite IH. naive_solver.
Qed.

Lemma keys_set_in k v d :
  k ∈ Dict.keys d → Dict.keys (Dict.set k v d) = Dict.keys d.
Proof.
  unfold Dict.keys. induction d as [|[k' v'] d IH]; simpl.
  - by intros ?%elem_of_nil.
  - intros Hin. destruct (decide (k = k')) as [->|?]; simpl; [done|].
    f_equal. apply IH. apply elem_of_cons in Hin as [?|?]; done.
Qed.

Lemma set_notin k v d : k ∉ Dict.keys d → Dict.set k v d = (d ++ [(k, v)])%list.
Proof.
  unfold Dict.keys. induction d as [|[k' v'] d IH]; simpl; [done|].
  intros Hnin%not_elem_of_cons. destruct Hnin as [? ?].
  rewrite decide_False by done. f_equal. by apply IH.
Qed.

Lemma elem_of_set k v d k' v' :
  (k', v') ∈ Dict.set k v d → (k' = k ∧ v' = v) ∨ (k', v') ∈ d.
Proof.
  induction d as [|[k1 v1] d IH]; simpl.
  - intros [= -> ->]%list_elem_of_singleton. by left.
  - destruct (decide (k = k1)) as [->|?].
    + intros [[= -> ->]|?]%elem_of_cons; [by left|]. right. by right.
    + intros [[= -> ->]|?]%elem_of_cons; [right; by left|].
      destruct IH as [?|?]; [done|by left|]. right. by right.
Qed.

Lemma values_set_Forall (P : V → Prop) k v d :
  Forall P (Dict.values d) → P v → Forall P (Dict.values (Dict.set k v d)).
Proof.
  unfold Dict.values. intros Hd Hv. induction d as [|[k1 v1] d IH]; simpl.
  - by constructor.
  - apply Forall_cons in Hd as [? ?].
    destruct (decide (k = k1)); simpl; constructor; auto.
Qed.

End DictFacts.

Lemma game_id_inj : Inj (=) (=) game_id.
Proof. intros n1 n2 H. unfold game_id in H. by simplify_eq. Qed.

(** * Classification of a line, as the loop body performs it *)

Lemma parse_line_classify line :
  parse_line line =
  match classify line with
  | Ignored => ret tt
  | MatchStart => _start_new_game
  | KillEvent m => _process_kill_event m
  end.
Proof.
  unfold parse_line, classify.
  pose proof (search_init_game line) as Hs.
  destruct (decide (strip line = "")) as [He|_].
  - rewrite <-(strip_contains "I" "nitGame:" line eq_refl). by rewrite He.
  - destruct (re_search init_game_pattern (strip line)) as [m0|].
    + by rewrite (proj1 Hs) by eauto.
    + destruct (contains "InitGame:" line).
      * by destruct (proj2 Hs).
      * by destruct (re_match kill_pattern (strip line)).
Qed.

(** * Invariants of the parser state *)

Lemma inv_reset : inv (MkParser [] None 0).
Proof. by split. Qed.

Lemma inv_fresh_key self :
  inv self → game_id (game_counter self + 1) ∉ Dict.keys (games self).
Proof.
  intros [Hc Hk _ _]. rewrite Hk.
  intros (n & ?%game_id_inj & Hn%elem_of_seqZ)%list_elem_of_fmap. lia.
Qed.

Lemma inv_wf self : inv self → wf self.
Proof.
  intros [Hc Hk Hcur _] id. rewrite Hcur.
  destruct (decide (game_counter self = 0)); [done|]. intros [= <-].
  apply get_is_Some. rewrite Hk. apply list_elem_of_fmap.
  exists (game_counter self). split; [done|]. apply elem_of_seqZ. lia.
Qed.

Lemma wf_opened self :
  wf self →
  ∃ id g, current_game_id (opened self) = Some id
          ∧ Dict.get id (games (opened self)) = Some g.
Proof.
  intros Hwf. unfold opened. destruct (current_game_id self) as [id|] eqn:E.
  - destruct (Hwf id E) as [g Hg]. eauto.
  - simpl. eexists _, _. split; [done|]. apply get_set_eq.
Qed.

Lemma inv_start self : inv self → inv (_start_new_game self).2.
Proof.
  intros Hinv. pose proof (inv_fresh_key _ Hinv) as Hfresh.
  destruct Hinv as [Hc Hk Hcur Hg]. rewrite start_new_game_eq. split; simpl.
  - lia.
  - rewrite set_notin by done. unfold Dict.keys in *.
    rewrite fmap_app, Hk. simpl.
    rewrite (seqZ_app 1 (game_counter self) 1) by lia.
    rewrite fmap_app. do 2 f_equal. by rewrite Z.add_comm.
  - rewrite decide_False by lia. done.
  - apply values_set_Forall; [done|]. split; simpl.
    + apply not_elem_of_nil.
    + intros name. cbn. rewrite lookup_empty. by intros [? ?].
Qed.

Lemma inv_opened self : inv self → inv (opened self).
Proof.
  intros Hinv. unfold opened. destruct (current_game_id self); [done|].
  by apply inv_start.
Qed.

Lemma elem_of_kill_update_players A B g name :
  name ∈ players (kill_update A B g)
  ↔ name ∈ players g ∨ (name ≠ world ∧ (name = A ∨ name = B)).
Proof.
  unfold kill_update. cbn [players].
  rewrite elem_of_sorted, elem_of_elements.
  repeat case_decide; set_solver.
Qed.

Lemma kill_update_ok A B g : game_ok g → game_ok (kill_update A B g).
Proof.
  intros [Hw Hk]. split.
  - rewrite elem_of_kill_update_players. naive_solver.
  - intros name. rewrite elem_of_kill_update_players.
    unfold kill_update, defaultdict_add. cbn [kills].
    repeat case_decide; subst;
      rewrite ?lookup_insert_is_Some; naive_solver.
Qed.

Lemma process_kill_event_wf m self :
  wf self → kill_event m →
  ∃ id g A B,
    killer_name m = Some A ∧ victim_name m = Some B
    ∧ current_game_id (opened self) = Some id
    ∧ Dict.get id (games (opened self)) = Some g
    ∧ _process_kill_event m self =
      (Return tt,
       set_games (Dict.set id (kill_update A B g) (games (opened self)))
         (opened self)).
Proof.
  intros (id & g & Hid & Hg)%wf_opened ([A HA] & [B HB] & Hw).
  exists id, g, A, B. split_and!; try done.
  by apply process_kill_event_eq.
Qed.

Lemma elem_of_values_get id (d : games_dict) g :
  Dict.get id d = Some g → g ∈ Dict.values d.
Proof.
  unfold Dict.values. induction d as [|[k v] d IH]; simpl; [done|].
  destruct (decide (id = k)).
  - intros [= ->]. by left.
  - intros ?. right. by apply IH.
Qed.

Lemma inv_kill m self :
  inv self → kill_event m →
  ∃ self', _process_kill_event m self = (Return tt, self') ∧ inv self'.
Proof.
  intros Hinv Hm.
  destruct (process_kill_event_wf m self (inv_wf _ Hinv) Hm)
    as (id & g & A & B & _ & _ & Hid & Hg & ->).
  eexists. split; [done|].
  apply inv_opened in Hinv as [Hc Hk Hcur Hgs]. split; simpl; try done.
  - rewrite keys_set_in; [done|]. apply get_is_Some. eauto.
  - apply values_set_Forall; [done|]. apply kill_update_ok.
    eapply Forall_forall; [exact Hgs|]. by eapply elem_of_values_get.
Qed.

Lemma inv_parse_line line self :
  inv self → ∃ self', parse_line line self = (Return tt, self') ∧ inv self'.
Proof.
  intros Hinv. rewrite parse_line_classify. unfold classify.
  destruct (contains "InitGame:" line).
  - exists (_start_new_game self).2. split; [done|by apply inv_start].
  - destruct (re_match kill_pattern (strip line)) as [m|] eqn:Hm.
    + apply inv_kill; [done|]. by eapply kill_pattern_kill_event.
    + by exists self.
Qed.

Lemma for_each_cons {A} (x : A) l body self :
  for_each (x :: l) body self =
  match body x self with
  | (Return _, self') => for_each l body self'
  | (Raise e, self') => (Raise e, self')
  end.
Proof. reflexivity. Qed.

Lemma for_each_app {A} (l1 l2 : list A) body self self1 :
  for_each l1 body self = (Return tt, self1) →
  for_each (l1 ++ l2) body self = for_each l2 body self1.
Proof.
  revert self. induction l1 as [|x l1 IH]; intros self.
  - by intros [= ->].
  - rewrite <-app_comm_cons, !for_each_cons. destruct (body x self) as [[[]|e] s']; [|done].
    apply IH.
Qed.

Lemma inv_for_each lines self :
  inv self →
  ∃ self', for_each lines parse_line self = (Return tt, self') ∧ inv self'.
Proof.
  revert self. induction lines as [|line lines IH]; intros self Hinv.
  - by exists self.
  - rewrite for_each_cons.
    destruct (inv_parse_line line self Hinv) as (s1 & -> & Hinv1).
    by apply IH.
Qed.

Lemma run_lines_spec lines :
  for_each lines parse_line (MkParser [] None 0) = (Return tt, run_lines lines)
  ∧ inv (run_lines lines).
Proof.
  unfold run_lines.
  by destruct (inv_for_each lines _ inv_reset) as (s' & -> & ?).
Qed.

Lemma parse_log_file_regular fs file_path lines self :
  fs !! file_path = Some (RegularFile lines) →
  parse_log_file fs file_path self =
  (Return (games (run_lines lines)), run_lines lines).
Proof.
  intros Hf. unfold parse_log_file, path_exists.
  rewrite bool_decide_eq_true_2 by (rewrite Hf; eauto). cbn [negb].
  unfold for_each_line, mbind, M_bind, bind, modify, open, gets. rewrite Hf.
  cbn -[for_each parse_line].
  change (set_game_counter 0 (set_current_game_id None (set_games [] self)))
    with (MkParser [] None 0).
  by rewrite (proj1 (run_lines_spec lines)).
Qed.

Lemma parse_log_file_missing fs file_path self :
  fs !! file_path = None →
  parse_log_file fs file_path self =
  (Raise (FileNotFoundError ("Log file not found: " ++ file_path)), self).
Proof.
  intros Hf. unfold parse_log_file, path_exists.
  rewrite bool_decide_eq_false_2; [done|]. rewrite Hf. by intros [? ?].
Qed.

Lemma parse_log_file_directory fs file_path self :
  fs !! file_path = Some Directory →
  parse_log_file fs file_path self =
  (Raise (IsADirectoryError file_path), MkParser [] None 0).
Proof.
  intros Hf. unfold parse_log_file, path_exists.
  rewrite bool_decide_eq_true_2 by (rewrite Hf; eauto). cbn [negb].
  unfold mbind, M_bind, bind, modify, open. by rewrite Hf.
Qed.

(** A file that stops decoding: the lines read so far are processed, then
    the iteration raises and no result is returned. *)
Lemma parse_log_file_undecodable fs file_path lines self :
  fs !! file_path = Some (UndecodableFile lines) →
  parse_log_file fs file_path self =
  (Raise (UnicodeDecodeError "utf-8"), run_lines lines).
Proof.
  intros Hf. unfold parse_log_file, path_exists.
  rewrite bool_decide_eq_true_2 by (rewrite Hf; eauto). cbn [negb].
  unfold for_each_line, mbind, M_bind, bind, modify, open, gets. rewrite Hf.
  cbn -[for_each parse_line].
  change (set_game_counter 0 (set_current_game_id None (set_games [] self)))
    with (MkParser [] None 0).
  by rewrite (proj1 (run_lines_spec lines)).
Qed.

(** * Match ids (C1) *)

(** The key of the first match is [game_1], not [match_1]. *)
Lemma C1_match_prefix_counterexample :
  ∃ d self',
    parse_log_file one_marker_fs "log.txt" __init__ = (Return d, self')
    ∧ Dict.keys d = ["game_1"]
    ∧ Dict.keys d ≠ ["match_1"].
Proof. eexists _, _. split; [vm_compute; reflexivity|]. by split. Qed.

Lemma run_lines_app lines1 lines2 :
  for_each lines2 parse_line (run_lines lines1)
  = (Return tt, run_lines (lines1 ++ lines2)).
Proof.
  pose proof (run_lines_spec (lines1 ++ lines2)) as [Hr _].
  rewrite (for_each_app _ _ _ _ _ (proj1 (run_lines_spec lines1))) in Hr.
  done.
Qed.

Lemma keys_monotone_line line self :
  inv self →
  ∃ self', parse_line line self = (Return tt, self')
           ∧ Dict.keys (games self) `prefix_of` Dict.keys (games self').
Proof.
  intros Hinv. rewrite parse_line_classify. unfold classify.
  destruct (contains "InitGame:" line).
  - rewrite start_new_game_eq. eexists. split; [done|]. simpl.
    rewrite set_notin by by apply inv_fresh_key.
    unfold Dict.keys. rewrite fmap_app. by apply prefix_app_r.
  - destruct (re_match kill_pattern (strip line)) as [m|] eqn:Hm; [|by exists self].
    destruct (process_kill_event_wf m self (inv_wf _ Hinv))
      as (id & g & A & B & _ & _ & Hid & Hg & ->);
      [by eapply kill_pattern_kill_event|].
    eexists. split; [done|]. simpl.
    rewrite keys_set_in by (apply get_is_Some; eauto).
    unfold opened. destruct (current_game_id self); [done|].
    rewrite start_new_game_eq. simpl.
    rewrite set_notin by by apply inv_fresh_key.
    unfold Dict.keys. rewrite fmap_app. by apply prefix_app_r.
Qed.

Lemma keys_monotone lines1 lines2 :
  Dict.keys (games (run_lines lines1))
  `prefix_of` Dict.keys (games (run_lines (lines1 ++ lines2))).
Proof.
  revert lines1. induction lines2 as [|line lines2 IH]; intros lines1.
  - by rewrite app_nil_r.
  - rewrite (cons_middle line lines1 lines2), app_assoc.
    etrans; [|apply IH].
    destruct (keys_monotone_line line (run_lines lines1))
      as (s' & Hs & Hp); [apply run_lines_spec|].
    pose proof (run_lines_app lines1 [line]) as Hr.
    rewrite for_each_cons, Hs in Hr. simpl in Hr. by injection Hr as <-.
Qed.

(** * Kill events (C2, C3) *)

Lemma current_game_set self id g :
  current_game_id self = Some id →
  current_game (set_games (Dict.set id g (games self)) self) = Some g.
Proof.
  intros Hid. unfold current_game. simpl. rewrite Hid. simpl.
  apply get_set_eq.
Qed.

Lemma kill_update_Sorted A B g : Sorted String.le (players (kill_update A B g)).
Proof. apply sorted_Sorted. Qed.

(** Two kills by a player where the victim is not treated as C2 says.
    A player killing [<world>]: the victim name is not put into [players].
    A player killing themselves: the victim had no score, and the event
    gives them one, the killer's. *)
Lemma C2_world_victim_counterexample :
  (∃ m self' g',
     re_match kill_pattern (strip alice_world_line) = Some m
     ∧ killer_name m = Some "Alice"
     ∧ victim_name m = Some "<world>"
     ∧ _process_kill_event m __init__ = (Return tt, self')
     ∧ current_game self' = Some g'
     ∧ "<world>" ∉ players g')
  ∧ (∃ m g self' g',
       re_match kill_pattern (strip alice_alice_line) = Some m
       ∧ killer_name m = Some "Alice"
       ∧ victim_name m = Some "Alice"
       ∧ current_game (opened __init__) = Some g
       ∧ kills g !! "Alice" = None
       ∧ _process_kill_event m __init__ = (Return tt, self')
       ∧ current_game self' = Some g'
       ∧ kills g' !! "Alice" = Some 1).
Proof.
  split.
  - eexists _, _, _.
    split; [vm_compute; reflexivity|].
    split; [vm_compute; reflexivity|].
    split; [vm_compute; reflexivity|].
    split; [vm_compute; reflexivity|].
    split; [vm_compute; reflexivity|].
    cbn. by intros [=]%list_elem_of_singleton.
  - eexists _, _, _, _.
    split; [vm_compute; reflexivity|].
    split; [vm_compute; reflexivity|].
    split; [vm_compute; reflexivity|].
    split; [vm_compute; reflexivity|].
    split; [vm_compute; reflexivity|].
    split; [vm_compute; reflexivity|].
    split; [vm_compute; reflexivity|].
    vm_compute; reflexivity.
Qed.

(** C2 (amended): a kill by a player [A] (the self-kill [A = B] included)
    adds 1 to the current match's [total_kills] and to [A]'s score, a missing
    score starting at 0; afterwards the sorted [players] list holds [A], and
    [B] unless [B] is [<world>]; when [B ≠ A] the event leaves the score
    entry of [B] as it was and adds none, as it does for every name other
    than [A]. *)
Theorem kill_by_player self m A B :
  wf self →
  killer_name m = Some A → victim_name m = Some B → is_Some (weapon m) →
  A ≠ "<world>" →
  ∃ g g' self',
    current_game (opened self) = Some g
    ∧ _process_kill_event m self = (Return tt, self')
    ∧ current_game self' = Some g'
    ∧ current_game_id self' = current_game_id (opened self)
    ∧ total_kills g' = total_kills g + 1
    ∧ kills g' !! A = Some (default 0 (kills g !! A) + 1)
    ∧ A ∈ players g'
    ∧ (B ≠ "<world>" → B ∈ players g')
    ∧ Sorted String.le (players g')
    ∧ (B ≠ A → kills g' !! B = kills g !! B)
    ∧ (∀ name, name ≠ A → kills g' !! name = kills g !! name).
Proof.
  intros Hwf HA HB Hw Hne.
  destruct (wf_opened self Hwf) as (id & g & Hid & Hg).
  exists g, (kill_update A B g). eexists.
  split; [by unfold current_game; rewrite Hid|].
  split; [by eapply process_kill_event_eq|].
  split; [by apply current_game_set|].
  split; [done|]. split; [done|].
  split.
  { unfold kill_update, defaultdict_add, world. cbn [kills].
    rewrite decide_False by done. apply lookup_insert_eq. }
  rewrite !elem_of_kill_update_players. unfold world.
  split; [naive_solver|]. split; [naive_solver|].
  split; [apply kill_update_Sorted|].
  assert (∀ name, name ≠ A → kills (kill_update A B g) !! name = kills g !! name)
    as Hothers.
  { intros name Hname. unfold kill_update, defaultdict_add, world. cbn [kills].
    rewrite decide_False by done. by apply lookup_insert_ne. }
  split; [apply Hothers|done].
Qed.

Lemma kill_by_player_witness :
  ∃ g g' self',
    current_game (opened __init__) = Some g
    ∧ _process_kill_event (match_of alice_bob_line) __init__ = (Return tt, self')
    ∧ current_game self' = Some g'
    ∧ current_game_id self' = current_game_id (opened __init__)
    ∧ total_kills g' = total_kills g + 1
    ∧ kills g' !! "Alice" = Some (default 0 (kills g !! "Alice") + 1)
    ∧ "Alice" ∈ players g'
    ∧ ("Bob" ≠ "<world>" → "Bob" ∈ players g')
    ∧ Sorted String.le (players g')
    ∧ ("Bob" ≠ "Alice" → kills g' !! "Bob" = kills g !! "Bob")
    ∧ (∀ name, name ≠ "Alice" → kills g' !! name = kills g !! name).
Proof.
  apply (kill_by_player __init__ (match_of alice_bob_line) "Alice" "Bob").
  - by intros id.
  - vm_compute; reflexivity.
  - vm_compute; reflexivity.
  - vm_compute. by eexists.
  - done.
Defined.

(** C3: a kill by [<world>] of a player [B] adds 1 to the current match's
    [total_kills], takes 1 from [B]'s score, a missing score starting at 0 (so
    the first penalty gives -1), and [B] is in [players] afterwards; and no
    [players] list of a parse result holds [<world>]. *)
Theorem kill_by_world :
  (∀ self m B,
     wf self →
     killer_name m = Some "<world>" → victim_name m = Some B →
     is_Some (weapon m) → B ≠ "<world>" →
     ∃ g g' self',
       current_game (opened self) = Some g
       ∧ _process_kill_event m self = (Return tt, self')
       ∧ current_game self' = Some g'
       ∧ current_game_id self' = current_game_id (opened self)
       ∧ total_kills g' = total_kills g + 1
       ∧ kills g' !! B = Some (default 0 (kills g !! B) - 1)
       ∧ (kills g !! B = None → kills g' !! B = Some (-1))
       ∧ B ∈ players g')
  ∧ (∀ (fs : filesystem) path lines self,
       fs !! path = Some (RegularFile lines) →
       ∃ d self',
         parse_log_file fs path self = (Return d, self')
         ∧ ∀ id g, (id, g) ∈ d → "<world>" ∉ players g).
Proof.
  split.
  - intros self m B Hwf HA HB Hw Hne.
    destruct (wf_opened self Hwf) as (id & g & Hid & Hg).
    exists g, (kill_update world B g). eexists.
    split; [by unfold current_game; rewrite Hid|].
    split; [by eapply process_kill_event_eq|].
    split; [by apply current_game_set|].
    split; [done|]. split; [done|].
    assert (kills (kill_update world B g) !! B
            = Some (default 0 (kills g !! B) - 1)) as HkB.
    { unfold kill_update, defaultdict_add. cbn [kills].
      rewrite decide_True, decide_True by done. apply lookup_insert_eq. }
    split; [done|]. split; [by intros HN; rewrite HkB, HN|].
    rewrite elem_of_kill_update_players. naive_solver.
  - intros fs path lines self Hf. eexists _, _.
    split; [by apply parse_log_file_regular|].
    intros id g Hin.
    destruct (run_lines_spec lines) as [_ [_ _ _ Hgs]].
    rewrite Forall_forall in Hgs. apply (Hgs g).
    unfold Dict.values. apply list_elem_of_fmap. by exists (id, g).
Qed.

Lemma kill_by_world_witness :
  (∃ g g' self',
     current_game (opened __init__) = Some g
     ∧ _process_kill_event (match_of world_bob_line) __init__ = (Return tt, self')
     ∧ current_game self' = Some g'
     ∧ current_game_id self' = current_game_id (opened __init__)
     ∧ total_kills g' = total_kills g + 1
     ∧ kills g' !! "Bob" = Some (default 0 (kills g !! "Bob") - 1)
     ∧ (kills g !! "Bob" = None → kills g' !! "Bob" = Some (-1))
     ∧ "Bob" ∈ players g')
  ∧ (∃ d self',
       parse_log_file example_fs "log.txt" __init__ = (Return d, self')
       ∧ ∀ id g, (id, g) ∈ d → "<world>" ∉ players g).
Proof.
  split.
  - apply (proj1 kill_by_world __init__ (match_of world_bob_line) "Bob").
    + by intros id.
    + vm_compute; reflexivity.
    + vm_compute; reflexivity.
    + vm_compute. by eexists.
    + done.
  - apply (proj2 kill_by_world example_fs "log.txt" example_log __init__).
    reflexivity.
Defined.

(** * Logs without kill events (C4) *)

Lemma classify_marker line : is_marker line = true → classify line = MatchStart.
Proof. unfold is_marker, classify. by intros ->. Qed.

Lemma classify_not_kill line :
  is_marker line = false → is_kill_line line = false → classify line = Ignored.
Proof.
  unfold is_kill_line, is_marker, classify. intros ->. simpl.
  intros Hk%bool_decide_eq_false.
  destruct (re_match kill_pattern (strip line)); [|done].
  destruct Hk. eauto.
Qed.

Lemma classify_ignored line : is_ignored line = true ↔ classify line = Ignored.
Proof.
  unfold is_ignored, is_marker, classify.
  destruct (contains "InitGame:" line); simpl; [done|].
  rewrite bool_decide_eq_true.
  by destruct (re_match kill_pattern (strip line)).
Qed.

Lemma classify_kill line :
  is_kill_line line = true ↔ ∃ m, classify line = KillEvent m.
Proof.
  unfold is_kill_line, is_marker, classify.
  destruct (contains "InitGame:" line); simpl.
  - split; [done|]. by intros [? ?].
  - rewrite bool_decide_eq_true.
    destruct (re_match kill_pattern (strip line)); split; try by eauto.
    all: by intros [? ?].
Qed.

Lemma markers_for_each lines self :
  inv self →
  Forall (λ line, is_kill_line line = false) lines →
  Forall (λ g, g = new_game) (Dict.values (games self)) →
  ∃ self',
    for_each lines parse_line self = (Return tt, self')
    ∧ inv self'
    ∧ Forall (λ g, g = new_game) (Dict.values (games self'))
    ∧ List.length (games self')
      = (List.length (games self) + List.length (filter is_marker lines))%nat.
Proof.
  revert self. induction lines as [|line lines IH]; intros self Hinv Hl Hg.
  - exists self. by split_and!.
  - apply Forall_cons in Hl as [Hline Hl]. rewrite for_each_cons.
    rewrite parse_line_classify. destruct (is_marker line) eqn:Hm.
    + rewrite classify_marker by done. rewrite start_new_game_eq.
      pose proof (inv_start _ Hinv) as Hinv1. rewrite start_new_game_eq in Hinv1.
      cbn [snd] in Hinv1.
      destruct (IH _ Hinv1 Hl) as (s' & -> & ? & ? & Hlen).
      { simpl. by apply values_set_Forall. }
      exists s'. split_and!; try done. rewrite Hlen. simpl.
      rewrite set_notin by by apply inv_fresh_key.
      rewrite filter_cons_True by by rewrite Hm.
      rewrite length_app. simpl. lia.
    + rewrite classify_not_kill by done. unfold ret. cbv beta iota.
      destruct (IH _ Hinv Hl Hg) as (s' & -> & ? & ? & Hlen).
      exists s'. split_and!; try done.
      rewrite filter_cons_False; [done|]. rewrite Hm. by intros [].
Qed.

(** C4: a log with N lines containing [InitGame:] and no kill-event line
    parses to exactly N matches, each with [total_kills = 0], [players = []]
    and [kills = {}]: every marker opens a fresh match, whether or not the
    match before it had kills. *)
Theorem markers_only (fs : filesystem) path lines self :
  fs !! path = Some (RegularFile lines) →
  (∀ line, line ∈ lines → is_kill_line line = false) →
  ∃ d self',
    parse_log_file fs path self = (Return d, self')
    ∧ List.length d = List.length (filter (λ line, contains "InitGame:" line) lines)
    ∧ ∀ id g, (id, g) ∈ d → total_kills g = 0 ∧ players g = [] ∧ kills g = ∅.
Proof.
  intros Hf Hk. eexists _, _. split; [by apply parse_log_file_regular|].
  destruct (markers_for_each lines _ inv_reset) as (s' & Hs & _ & Hg & Hlen).
  { by apply Forall_forall. }
  { by constructor. }
  rewrite (proj1 (run_lines_spec lines)) in Hs. injection Hs as <-.
  split; [exact Hlen|]. intros id g Hin.
  rewrite Forall_forall in Hg. rewrite (Hg g); [done|].
  unfold Dict.values. apply list_elem_of_fmap. by exists (id, g).
Qed.

Lemma markers_only_witness :
  ∃ d self',
    parse_log_file {[ "log.txt" := RegularFile markers_log ]} "log.txt" __init__
    = (Return d, self')
    ∧ List.length d
      = List.length (filter (λ line, contains "InitGame:" line) markers_log)
    ∧ ∀ id g, (id, g) ∈ d → total_kills g = 0 ∧ players g = [] ∧ kills g = ∅.
Proof.
  apply (markers_only {[ "log.txt" := RegularFile markers_log ]} "log.txt"
           markers_log __init__).
  - reflexivity.
  - intros line Hin. unfold markers_log in Hin.
    repeat (apply elem_of_cons in Hin as [->|Hin]; [vm_compute; reflexivity|]).
    by apply elem_of_nil in Hin.
Defined.

(** * Missing input file (C6) *)

(** C6: on a path that does not exist [parse_log_file] raises
    [FileNotFoundError] and returns nothing; the parser is left as it was,
    not even reset, so no line has been read. *)
Theorem missing_file_raises (fs : filesystem) path self :
  fs !! path = None →
  parse_log_file fs path self
  = (Raise (FileNotFoundError ("Log file not found: " ++ path)), self).
Proof. apply parse_log_file_missing. Qed.

Lemma missing_file_raises_witness :
  ({[ "log.txt" := RegularFile markers_log ]} : filesystem) !! "qgames.log" = None
  ∧ parse_log_file {[ "log.txt" := RegularFile markers_log ]} "qgames.log"
      (MkParser [("game_1", new_game)] (Some "game_1") 1)
    = (Raise (FileNotFoundError "Log file not found: qgames.log"),
       MkParser [("game_1", new_game)] (Some "game_1") 1).
Proof.
  split; [reflexivity|].
  apply (missing_file_raises {[ "log.txt" := RegularFile markers_log ]} "qgames.log").
  reflexivity.
Defined.

(** * Unrecognised lines (C7) *)

Lemma ignored_for_each lines self :
  Forall (λ line, is_ignored line = true) lines →
  for_each lines parse_line self = (Return tt, self).
Proof.
  induction 1 as [|line lines Hline _ IH]; [done|].
  rewrite for_each_cons, parse_line_classify.
  by apply classify_ignored in Hline as ->.
Qed.

Lemma blank_is_ignored line : strip line = "" → is_ignored line = true.
Proof.
  intros He. unfold is_ignored, is_marker.
  rewrite <-(strip_contains "I" "nitGame:" line eq_refl), He. by vm_compute.
Qed.

(** A log file without any marker or kill line whose parse fails: its bytes
    are not UTF-8, the iteration over the file raises [UnicodeDecodeError],
    and no mapping, empty or not, is returned. *)
Lemma C7_undecodable_counterexample :
  undecodable_fs !! "log.txt" = Some (UndecodableFile [])
  ∧ path_exists undecodable_fs "log.txt" = true
  ∧ parse_log_file undecodable_fs "log.txt" __init__
    = (Raise (UnicodeDecodeError "utf-8"), MkParser [] None 0)
  ∧ ∀ d self', parse_log_file undecodable_fs "log.txt" __init__ ≠ (Return d, self').
Proof.
  split; [reflexivity|]. split; [reflexivity|]. split; [reflexivity|].
  intros d self'.
  by rewrite (parse_log_file_undecodable undecodable_fs "log.txt" [] _ eq_refl).
Qed.

(** C7 (amended): a line that neither contains [InitGame:] nor matches the
    kill pattern (a blank line is one) leaves the parser as it was and raises
    nothing; parsing a file that decodes as UTF-8 always returns, whatever
    its lines; a log made of such lines only parses to the empty mapping;
    and a file that stops decoding makes the parse raise
    [UnicodeDecodeError], once the lines before have been processed. *)
Theorem unrecognised_lines_skipped :
  (∀ line self, is_ignored line = true → parse_line line self = (Return tt, self))
  ∧ (∀ line, strip line = "" → is_ignored line = true)
  ∧ (∀ (fs : filesystem) path lines self,
       fs !! path = Some (RegularFile lines) →
       ∃ d self', parse_log_file fs path self = (Return d, self'))
  ∧ (∀ (fs : filesystem) path lines self,
       fs !! path = Some (RegularFile lines) →
       (∀ line, line ∈ lines → is_ignored line = true) →
       parse_log_file fs path self = (Return [], MkParser [] None 0))
  ∧ (∀ (fs : filesystem) path lines self,
       fs !! path = Some (UndecodableFile lines) →
       parse_log_file fs path self
       = (Raise (UnicodeDecodeError "utf-8"), run_lines lines)).
Proof.
  split_and!.
  - intros line self Hi. rewrite parse_line_classify.
    by apply classify_ignored in Hi as ->.
  - apply blank_is_ignored.
  - intros fs path lines self Hf. eexists _, _.
    by apply parse_log_file_regular.
  - intros fs path lines self Hf Hl.
    rewrite (parse_log_file_regular _ _ _ _ Hf). unfold run_lines.
    rewrite ignored_for_each; [done|]. by apply Forall_forall.
  - intros fs path lines self Hf. by apply parse_log_file_undecodable.
Qed.

Lemma unrecognised_lines_skipped_witness :
  parse_line " 20:37 ShutdownGame:" (MkParser [("game_1", new_game)] (Some "game_1") 1)
  = (Return tt, MkParser [("game_1", new_game)] (Some "game_1") 1)
  ∧ is_ignored "   " = true
  ∧ (∃ d self',
       parse_log_file {[ "log.txt" := RegularFile noise_log ]} "log.txt" __init__
       = (Return d, self'))
  ∧ parse_log_file {[ "log.txt" := RegularFile noise_log ]} "log.txt"
      (MkParser [("game_1", new_game)] (Some "game_1") 1)
    = (Return [], MkParser [] None 0)
  ∧ parse_log_file {[ "log.txt" := UndecodableFile markers_log ]} "log.txt"
      (MkParser [("game_1", new_game)] (Some "game_1") 1)
    = (Raise (UnicodeDecodeError "utf-8"), run_lines markers_log).
Proof.
  destruct unrecognised_lines_skipped as (H1 & H2 & H3 & H4 & H5).
  split_and!.
  - apply H1. vm_compute; reflexivity.
  - apply H2. reflexivity.
  - apply (H3 _ _ noise_log). reflexivity.
  - apply (H4 _ _ noise_log); [reflexivity|].
    intros line Hin. unfold noise_log in Hin.
    repeat (apply elem_of_cons in Hin as [->|Hin]; [vm_compute; reflexivity|]).
    by apply elem_of_nil in Hin.
  - apply (H5 _ _ markers_log). reflexivity.
Defined.

(** * A kill before any marker (C5) *)

(** The implicitly created match is stored under [game_1]; the result has
    no key [match_1]. *)
Lemma C5_match_1_counterexample :
  ∃ d self',
    is_kill_line " 0:05 Kill: 1 2 3: Alice killed Bob by MOD_ROCKET" = true
    ∧ parse_log_file
        {[ "log.txt" := RegularFile [" 0:05 Kill: 1 2 3: Alice killed Bob by MOD_ROCKET"] ]}
        "log.txt" __init__ = (Return d, self')
    ∧ Dict.keys d = ["game_1"]
    ∧ Dict.get "match_1" d = None.
Proof.
  eexists _, _. split; [vm_compute; reflexivity|].
  split; [vm_compute; reflexivity|]. by split.
Qed.

Lemma kill_update_holds A B A' B' g :
  holds_kill A B g → holds_kill A B (kill_update A' B' g).
Proof.
  intros [Ht Hp]. split; [simpl; lia|].
  intros name ? ?. apply elem_of_kill_update_players. left. by apply Hp.
Qed.

Lemma set_head {V} k (v : V) k1 g tl :
  Dict.set k v ((k1, g) :: tl)
  = if decide (k = k1) then (k1, v) :: tl else (k1, g) :: Dict.set k v tl.
Proof. simpl. by destruct (decide (k = k1)) as [->|?]. Qed.

Lemma get_head {V} k (v : V) d : Dict.get k ((k, v) :: d) = Some v.
Proof. simpl. by rewrite decide_True. Qed.

Lemma classify_KillEvent line m :
  classify line = KillEvent m → kill_event m.
Proof.
  unfold classify. destruct (contains "InitGame:" line); [done|].
  destruct (re_match kill_pattern (strip line)) eqn:Hm; [|done].
  intros [= <-]. by eapply kill_pattern_kill_event.
Qed.

Lemma first_game_line A B line self :
  inv self →
  (∃ g tl, games self = (game_id 1, g) :: tl ∧ holds_kill A B g) →
  ∃ self',
    parse_line line self = (Return tt, self') ∧ inv self'
    ∧ ∃ g tl, games self' = (game_id 1, g) :: tl ∧ holds_kill A B g.
Proof.
  intros Hinv (g & tl & Hgs & Hg).
  destruct (inv_parse_line line self Hinv) as (self' & Hp & Hinv').
  exists self'. split_and!; try done.
  rewrite parse_line_classify in Hp. destruct (classify line) as [| |m] eqn:Hc.
  - injection Hp as <-. eauto.
  - rewrite start_new_game_eq in Hp. injection Hp as <-. simpl.
    rewrite Hgs, set_head. case_decide as Hk; [|eauto].
    destruct (inv_fresh_key _ Hinv). rewrite Hk, Hgs. by left.
  - assert (opened self = self) as Ho.
    { unfold opened. rewrite (inv_current _ Hinv).
      case_decide as Hz; [|done].
      pose proof (inv_keys _ Hinv) as Hk. by rewrite Hz, Hgs in Hk. }
    destruct (process_kill_event_wf m self (inv_wf _ Hinv))
      as (id & g1 & A' & B' & _ & _ & Hid & Hg1 & Heq);
      [by eapply classify_KillEvent|].
    rewrite Heq in Hp. injection Hp as <-. rewrite Ho in *. simpl.
    rewrite Hgs, set_head. case_decide as Hk; [|eauto].
    subst id. rewrite Hgs, get_head in Hg1. injection Hg1 as <-.
    eauto using kill_update_holds.
Qed.

Lemma first_game_for_each A B lines self :
  inv self →
  (∃ g tl, games self = (game_id 1, g) :: tl ∧ holds_kill A B g) →
  ∃ self',
    for_each lines parse_line self = (Return tt, self')
    ∧ ∃ g tl, games self' = (game_id 1, g) :: tl ∧ holds_kill A B g.
Proof.
  revert self. induction lines as [|line lines IH]; intros self Hinv Hg.
  - by exists self.
  - rewrite for_each_cons.
    destruct (first_game_line A B line self Hinv Hg) as (s1 & -> & ? & ?).
    by apply IH.
Qed.

Lemma run_lines_kill_first pre line m :
  Forall (λ l, is_ignored l = true) pre →
  is_marker line = false → re_match kill_pattern (strip line) = Some m →
  ∃ A B,
    killer_name m = Some A ∧ victim_name m = Some B
    ∧ run_lines (pre ++ [line])
      = MkParser [(game_id 1, kill_update A B new_game)] (Some (game_id 1)) 1.
Proof.
  intros Hpre Hm Hk.
  destruct (kill_pattern_kill_event _ _ Hk) as ([A HA] & [B HB] & Hw).
  exists A, B. split_and!; try done.
  unfold run_lines.
  erewrite for_each_app by by apply ignored_for_each.
  rewrite for_each_cons, parse_line_classify. unfold classify.
  unfold is_marker in Hm. rewrite Hm, Hk.
  erewrite process_kill_event_eq; try done. reflexivity.
Qed.

(** * Order of the kill events of a match (C9) *)

Section DictUpdates.
Context {V : Type}.
Implicit Types (d : list (string * V)) (k : string) (v : V).

Lemma set_set k v1 v2 d : Dict.set k v2 (Dict.set k v1 d) = Dict.set k v2 d.
Proof.
  induction d as [|[k' v'] d IH]; simpl; [by rewrite decide_True|].
  destruct (decide (k = k')) as [->|?]; simpl.
  - by rewrite decide_True.
  - rewrite decide_False by done. by rewrite IH.
Qed.

Lemma set_get_id k v d : Dict.get k d = Some v → Dict.set k v d = d.
Proof.
  induction d as [|[k' v'] d IH]; simpl; [done|].
  destruct (decide (k = k')) as [->|?].
  - by intros [= ->].
  - intros ?. by rewrite IH.
Qed.
End DictUpdates.

Lemma opened_current self id :
  current_game_id self = Some id → opened self = self.
Proof. unfold opened. by intros ->. Qed.

Lemma process_kill_event_opened m self :
  _process_kill_event m self = _process_kill_event m (opened self).
Proof.
  unfold opened. destruct (current_game_id self) eqn:E; [done|].
  unfold _process_kill_event, mbind, M_bind, bind, gets.
  rewrite E. reflexivity.
Qed.

Lemma event_update_eq g m A B :
  killer_name m = Some A → victim_name m = Some B →
  event_update g m = kill_update A B g.
Proof. unfold event_update. by intros -> ->. Qed.

Lemma for_each_events ms self id g :
  current_game_id self = Some id → Dict.get id (games self) = Some g →
  Forall kill_event ms →
  for_each ms _process_kill_event self
  = (Return tt,
     set_games (Dict.set id (foldl event_update g ms) (games self)) self).
Proof.
  revert self g. induction ms as [|m ms IH]; intros self g Hid Hg Hms.
  - simpl. rewrite set_get_id by done. by destruct self.
  - apply Forall_cons in Hms as [([A HA] & [B HB] & Hw) Hms].
    rewrite for_each_cons.
    erewrite process_kill_event_eq;
      [|done|done|done|by rewrite (opened_current _ _ Hid)
       |by rewrite (opened_current _ _ Hid)].
    rewrite (opened_current _ _ Hid).
    erewrite IH; [|done|apply get_set_eq|done].
    cbn [foldl games set_games current_game_id game_counter].
    by rewrite set_set, (event_update_eq g m A B).
Qed.

Lemma list_to_set_sorted_elements (X : gset string) :
  list_to_set (sorted (elements X)) = X.
Proof.
  apply set_eq. intros x.
  by rewrite elem_of_list_to_set, elem_of_sorted, elem_of_elements.
Qed.

Lemma defaultdict_add_comm n1 d1 n2 d2 (k : gmap string Z) :
  defaultdict_add n1 d1 (defaultdict_add n2 d2 k)
  = defaultdict_add n2 d2 (defaultdict_add n1 d1 k).
Proof.
  unfold defaultdict_add. apply map_eq. intros x.
  destruct (decide (n1 = n2)) as [->|Hne].
  - rewrite !lookup_insert_eq. simpl.
    destruct (decide (x = n2)) as [->|?].
    + rewrite !lookup_insert_eq. f_equal. lia.
    + by rewrite !lookup_insert_ne.
  - rewrite (lookup_insert_ne _ n2 n1), (lookup_insert_ne _ n1 n2) by done.
    by rewrite insert_insert_ne.
Qed.

Lemma kill_update_comm A B A' B' g :
  kill_update A B (kill_update A' B' g) = kill_update A' B' (kill_update A B g).
Proof.
  unfold kill_update. cbn [total_kills players kills]. f_equal.
  - rewrite !list_to_set_sorted_elements. f_equal. f_equal.
    repeat case_decide; set_solver.
  - repeat case_decide; try done; apply defaultdict_add_comm.
Qed.

Lemma event_update_comm g m1 m2 :
  event_update (event_update g m1) m2 = event_update (event_update g m2) m1.
Proof.
  unfold event_update.
  destruct (killer_name m1), (victim_name m1), (killer_name m2), (victim_name m2);
    try done.
  apply kill_update_comm.
Qed.

Lemma foldl_event_update_perm ms ms' g :
  ms ≡ₚ ms' → foldl event_update g ms = foldl event_update g ms'.
Proof.
  intros Hp. revert g. induction Hp as [|m ms ms' _ IH|m1 m2 ms|ms1 ms2 ms3 _ IH1 _ IH2];
    intros g; simpl.
  - done.
  - apply IH.
  - by rewrite event_update_comm.
  - by rewrite IH1.
Qed.

Lemma elem_of_foldl_event_update ms g name :
  Forall kill_event ms →
  name ∈ players (foldl event_update g ms)
  ↔ name ∈ players g
    ∨ (name ≠ world
       ∧ ∃ m, m ∈ ms ∧ (killer_name m = Some name ∨ victim_name m = Some name)).
Proof.
  intros Hms. revert g. induction Hms as [|m ms ([A HA] & [B HB] & _) _ IH]; intros g.
  - simpl. split; [by left|]. intros [?|(_ & m & []%elem_of_nil & _)]. done.
  - simpl. rewrite IH, (event_update_eq g m A B HA HB).
    rewrite elem_of_kill_update_players. split.
    + intros [[?|(? & Hn)]|(? & m' & ? & ?)].
      * by left.
      * right. split; [done|]. exists m. split; [by left|].
        destruct Hn as [->| ->]; eauto.
      * right. split; [done|]. exists m'. split; [by right|done].
    + intros [?|(? & m' & [->|?]%elem_of_cons & Hn)].
      * left. by left.
      * left. right. split; [done|]. rewrite HA, HB in Hn.
        destruct Hn as [[= ->]|[= ->]]; eauto.
      * right. eauto.
Qed.

Lemma players_foldl_event_update_sorted ms m g :
  kill_event m →
  Sorted String.le (players (foldl event_update g (ms ++ [m])))
  ∧ NoDup (players (foldl event_update g (ms ++ [m]))).
Proof.
  intros ([A HA] & [B HB] & _). rewrite foldl_app. simpl.
  rewrite (event_update_eq _ m A B HA HB). unfold kill_update. cbn [players].
  split; [apply sorted_Sorted|].
  unfold sorted. rewrite merge_sort_Permutation. apply NoDup_elements.
Qed.

Lemma total_kills_foldl_event_update ms g :
  Forall kill_event ms →
  total_kills (foldl event_update g ms) = total_kills g + Z.of_nat (List.length ms).
Proof.
  intros Hms. revert g. induction Hms as [|m ms ([A HA] & [B HB] & _) _ IH]; intros g.
  - simpl. lia.
  - cbn [foldl List.length]. rewrite IH, (event_update_eq g m A B HA HB).
    cbn [kill_update total_kills]. lia.
Qed.

Lemma for_each_events_opened ms self :
  ms ≠ [] →
  for_each ms _process_kill_event self
  = for_each ms _process_kill_event (opened self).
Proof.
  destruct ms as [|m ms]; [done|]. intros _.
  by rewrite !for_each_cons, <-process_kill_event_opened.
Qed.

(** C9: kill events attributed to one match can be processed in any order:
    the parser ends in the same state, so the match has the same [players]
    and the same scores.  Its [players] list is sorted, without duplicates,
    and holds the names it had plus every name other than [<world>] seen as
    killer or victim. *)
Theorem kill_order_irrelevant self ms ms' :
  wf self → Forall kill_event ms → ms ≡ₚ ms' →
  ∃ self',
    for_each ms _process_kill_event self = (Return tt, self')
    ∧ for_each ms' _process_kill_event self = (Return tt, self')
    ∧ (ms ≠ [] →
       ∃ g g',
         current_game (opened self) = Some g
         ∧ current_game self' = Some g'
         ∧ total_kills g' = total_kills g + Z.of_nat (List.length ms)
         ∧ Sorted String.le (players g')
         ∧ NoDup (players g')
         ∧ ∀ name,
             name ∈ players g'
             ↔ name ∈ players g
               ∨ (name ≠ "<world>"
                  ∧ ∃ m, m ∈ ms
                         ∧ (killer_name m = Some name ∨ victim_name m = Some name))).
Proof.
  intros Hwf Hms Hp.
  destruct (decide (ms = [])) as [->|Hne].
  { apply Permutation_nil_l in Hp as <-. exists self.
    split; [done|]. split; [done|]. by intros []. }
  assert (ms' ≠ []) as Hne'.
  { intros ->. by apply Permutation_nil_r in Hp. }
  assert (Forall kill_event ms') as Hms' by by rewrite <-Hp.
  destruct (wf_opened self Hwf) as (id & g & Hid & Hg).
  rewrite (for_each_events_opened ms), (for_each_events_opened ms') by done.
  rewrite (for_each_events ms _ id g), (for_each_events ms' _ id g) by done.
  rewrite <-(foldl_event_update_perm ms ms' g Hp).
  eexists. split; [done|]. split; [done|]. intros _.
  exists g, (foldl event_update g ms).
  split; [by unfold current_game; rewrite Hid|].
  split; [by apply current_game_set|].
  split; [by apply total_kills_foldl_event_update|].
  destruct (exists_last Hne) as (ms0 & m & ->).
  apply Forall_app in Hms as [Hms0 [Hm _]%Forall_cons].
  destruct (players_foldl_event_update_sorted ms0 m g Hm) as [? ?].
  split; [done|]. split; [done|].
  intros name. apply elem_of_foldl_event_update.
  apply Forall_app. split; [done|]. by constructor.
Qed.

Lemma kill_event_match_of_alice_bob : kill_event (match_of alice_bob_line).
Proof. unfold kill_event. split_and!; vm_compute; by eexists. Qed.
Lemma kill_event_match_of_bob_alice : kill_event (match_of bob_alice_line).
Proof. unfold kill_event. split_and!; vm_compute; by eexists. Qed.
Lemma kill_event_match_of_world_bob : kill_event (match_of world_bob_line).
Proof. unfold kill_event. split_and!; vm_compute; by eexists. Qed.

Lemma kill_order_irrelevant_witness :
  ∃ self',
    for_each [match_of alice_bob_line; match_of world_bob_line]
      _process_kill_event __init__ = (Return tt, self')
    ∧ for_each [match_of world_bob_line; match_of alice_bob_line]
        _process_kill_event __init__ = (Return tt, self')
    ∧ ([match_of alice_bob_line; match_of world_bob_line] ≠ [] →
       ∃ g g',
         current_game (opened __init__) = Some g
         ∧ current_game self' = Some g'
         ∧ total_kills g' = total_kills g + 2
         ∧ Sorted String.le (players g')
         ∧ NoDup (players g')
         ∧ ∀ name,
             name ∈ players g'
             ↔ name ∈ players g
               ∨ (name ≠ "<world>"
                  ∧ ∃ m, m ∈ [match_of alice_bob_line; match_of world_bob_line]
                         ∧ (killer_name m = Some name ∨ victim_name m = Some name))).
Proof.
  apply (kill_order_irrelevant __init__
           [match_of alice_bob_line; match_of world_bob_line]
           [match_of world_bob_line; match_of alice_bob_line]).
  - by intros id.
  - constructor; [apply kill_event_match_of_alice_bob|].
    constructor; [apply kill_event_match_of_world_bob|constructor].
  - apply perm_swap.
Defined.

(** * Scored names are players (C10) *)

Lemma kill_update_scored A B g :
  scored_are_listed g → scored_are_listed (kill_update A B g).
Proof.
  intros Hk name. rewrite elem_of_kill_update_players.
  unfold kill_update, defaultdict_add. cbn [kills].
  repeat case_decide; subst; rewrite ?lookup_insert_is_Some; naive_solver.
Qed.

(** C10: in every match of a parse result each name with a score is in the
    match's [players]; and [_process_kill_event] keeps it so, for every match
    of the parser, whenever it held before the event. *)
Theorem scored_are_players :
  (∀ (fs : filesystem) path lines self,
     fs !! path = Some (RegularFile lines) →
     ∃ d self',
       parse_log_file fs path self = (Return d, self')
       ∧ ∀ id g name,
           (id, g) ∈ d → is_Some (kills g !! name) → name ∈ players g)
  ∧ (∀ self m,
       wf self → kill_event m →
       (∀ id g name,
          (id, g) ∈ games self → is_Some (kills g !! name) → name ∈ players g) →
       ∃ self',
         _process_kill_event m self = (Return tt, self')
         ∧ ∀ id g name,
             (id, g) ∈ games self' → is_Some (kills g !! name) → name ∈ players g).
Proof.
  split.
  - intros fs path lines self Hf. eexists _, _.
    split; [by apply parse_log_file_regular|].
    intros id g name Hin.
    destruct (run_lines_spec lines) as [_ [_ _ _ Hgs]].
    rewrite Forall_forall in Hgs. apply (Hgs g).
    unfold Dict.values. apply list_elem_of_fmap. by exists (id, g).
  - intros self m Hwf Hm Hself.
    destruct (process_kill_event_wf m self Hwf Hm)
      as (id & g & A & B & _ & _ & Hid & Hg & ->).
    eexists. split; [done|]. cbn [games set_games].
    assert (∀ id g, (id, g) ∈ games (opened self) → scored_are_listed g) as Ho.
    { unfold opened. destruct (current_game_id self).
      - intros id' g' Hin name. by eapply Hself.
      - rewrite start_new_game_eq. cbn [snd games].
        intros id' g' [[_ ->]|Hin]%elem_of_set name.
        + cbn. rewrite lookup_empty. by intros [? ?].
        + by eapply Hself. }
    intros id' g' name [[_ ->]|Hin]%elem_of_set.
    + apply kill_update_scored. apply (Ho id).
      clear -Hg. induction (games (opened self)) as [|[k v] d IH]; [done|].
      simpl in Hg. destruct (decide (id = k)) as [->|?].
      * injection Hg as ->. by left.
      * right. by apply IH.
    + by eapply Ho.
Qed.

Lemma scored_are_players_witness :
  (∃ d self',
     parse_log_file example_fs "log.txt" __init__ = (Return d, self')
     ∧ ∀ id g name,
         (id, g) ∈ d → is_Some (kills g !! name) → name ∈ players g)
  ∧ (∃ self',
       _process_kill_event (match_of world_bob_line)
         (MkParser [("game_1", new_game)] (Some "game_1") 1) = (Return tt, self')
       ∧ ∀ id g name,
           (id, g) ∈ games self' → is_Some (kills g !! name) → name ∈ players g).
Proof.
  split.
  - apply (proj1 scored_are_players example_fs "log.txt" example_log __init__).
    reflexivity.
  - apply (proj2 scored_are_players).
    + intros id [= <-]. vm_compute. by eexists.
    + apply kill_event_match_of_world_bob.
    + intros id g name [[= -> ->]|[]%elem_of_nil]%elem_of_cons.
      cbn. rewrite lookup_empty. by intros [? ?].
Defined.

(** * Re-running a parse (C8) *)

(** C8: what a second [parse_log_file] returns does not depend on the state
    the first one left behind: it is what a new parser returns, and when the
    second path exists the parser also ends in the state a new parser ends in
    (games, current game and counter are reset before the first line). *)
Theorem reparse_independent (fs1 fs2 : filesystem) path1 path2 self :
  (parse_log_file fs2 path2 (parse_log_file fs1 path1 self).2).1
  = (parse_log_file fs2 path2 __init__).1
  ∧ (path_exists fs2 path2 = true →
     parse_log_file fs2 path2 (parse_log_file fs1 path1 self).2
     = parse_log_file fs2 path2 __init__).
Proof.
  unfold path_exists. destruct (fs2 !! path2) as [[lines| |lines]|] eqn:Hf.
  - by rewrite !(parse_log_file_regular _ _ _ _ Hf).
  - by rewrite !(parse_log_file_directory _ _ _ Hf).
  - by rewrite !(parse_log_file_undecodable _ _ _ _ Hf).
  - rewrite !(parse_log_file_missing _ _ _ Hf). split; [done|].
    intros [? ?]%bool_decide_eq_true. done.
Qed.

Lemma reparse_independent_witness :
  (parse_log_file {[ "b.log" := RegularFile markers_log ]} "b.log"
     (parse_log_file example_fs "log.txt" __init__).2).1
  = (parse_log_file {[ "b.log" := RegularFile markers_log ]} "b.log" __init__).1
  ∧ parse_log_file {[ "b.log" := RegularFile markers_log ]} "b.log"
      (parse_log_file example_fs "log.txt" __init__).2
    = parse_log_file {[ "b.log" := RegularFile markers_log ]} "b.log" __init__.
Proof.
  destruct (reparse_independent example_fs
              {[ "b.log" := RegularFile markers_log ]} "log.txt" "b.log" __init__)
    as [H1 H2].
  split; [exact H1|]. apply H2. reflexivity.
Defined.

(** * The worked example of the specification *)

Example parse_example_log :
  (parse_log_file example_fs "log.txt" __init__).1
  = Return
      [ ("game_1", MkGame 2 ["Alice"; "Bob"] {[ "Alice" := 1; "Bob" := -1 ]});
        ("game_2", MkGame 1 ["Carol"; "Dave"] {[ "Carol" := 1 ]}) ].
Proof. vm_compute. reflexivity. Qed.

Example parse_directory :
  parse_log_file example_fs "logs" (MkParser [("game_1", new_game)] (Some "game_1") 1)
  = (Raise (IsADirectoryError "logs"), MkParser [] None 0).
Proof. reflexivity. Qed.

(** * The parse as a fold *)

Lemma update_last_snoc f (vs : list Game) g :
  update_last f (vs ++ [g]) = (vs ++ [f g])%list.
Proof.
  induction vs as [|v vs IH]; [done|].
  cbn [app update_last]. rewrite IH. by destruct vs.
Qed.

Lemma values_app (d1 d2 : games_dict) :
  Dict.values (d1 ++ d2) = (Dict.values d1 ++ Dict.values d2)%list.
Proof. unfold Dict.values. apply fmap_app. Qed.

Lemma set_snoc {V} k (v v' : V) d :
  k ∉ Dict.keys d → Dict.set k v' (d ++ [(k, v)])%list = (d ++ [(k, v')])%list.
Proof.
  unfold Dict.keys. induction d as [|[k1 v1] d IH]; simpl.
  - intros _. by rewrite decide_True.
  - intros [? ?]%not_elem_of_cons. rewrite decide_False by done.
    f_equal. by apply IH.
Qed.

Lemma get_snoc {V} k (v : V) d :
  k ∉ Dict.keys d → Dict.get k (d ++ [(k, v)])%list = Some v.
Proof.
  unfold Dict.keys. induction d as [|[k1 v1] d IH]; simpl.
  - intros _. by rewrite decide_True.
  - intros [? ?]%not_elem_of_cons. rewrite decide_False by done. by apply IH.
Qed.

(** Under the invariant the current game is the last one. *)
Lemma inv_last self :
  inv self → game_counter self ≠ 0 →
  ∃ d g, games self = (d ++ [(game_id (game_counter self), g)])%list
         ∧ game_id (game_counter self) ∉ Dict.keys d.
Proof.
  intros [Hc Hk _ _] Hne.
  destruct (games self) as [|x d0] eqn:Hg using rev_ind.
  { rewrite seqZ_cons in Hk by lia. done. }
  clear IHd0. destruct x as [k g]. exists d0, g.
  replace (game_counter self) with (game_counter self - 1 + 1) in Hk by lia.
  rewrite seqZ_app in Hk by lia. unfold Dict.keys in *.
  rewrite !fmap_app in Hk. simpl in Hk.
  apply app_inj_tail in Hk as [Hk1 Hk2].
  replace (1 + (game_counter self - 1)) with (game_counter self) in Hk2 by lia.
  simpl in Hk2. subst k. split; [done|]. rewrite Hk1.
  intros (n & ?%game_id_inj & Hn%elem_of_seqZ)%list_elem_of_fmap. lia.
Qed.

Lemma values_opened self :
  inv self →
  Dict.values (games (opened self))
  = match Dict.values (games self) with
    | [] => [new_game]
    | _ => Dict.values (games self)
    end.
Proof.
  intros Hinv. unfold opened. rewrite (inv_current _ Hinv).
  case_decide as Hz.
  - rewrite start_new_game_eq. cbn [snd games].
    pose proof (inv_keys _ Hinv) as Hk. rewrite Hz in Hk.
    destruct (games self); [done|done].
  - destruct (inv_last self Hinv Hz) as (d & g & -> & _).
    rewrite values_app. by destruct (Dict.values d).
Qed.

Lemma values_parse_line line self :
  inv self →
  ∃ self',
    parse_line line self = (Return tt, self') ∧ inv self'
    ∧ Dict.values (games self') = line_step (Dict.values (games self)) line.
Proof.
  intros Hinv.
  destruct (inv_parse_line line self Hinv) as (self' & Hp & Hinv').
  exists self'. split_and!; try done.
  rewrite parse_line_classify in Hp. unfold line_step.
  destruct (classify line) as [| |m] eqn:Hc.
  - by injection Hp as <-.
  - rewrite start_new_game_eq in Hp. injection Hp as <-. cbn [games].
    rewrite set_notin by by apply inv_fresh_key. apply values_app.
  - pose proof (classify_KillEvent _ _ Hc) as Hm.
    destruct (process_kill_event_wf m self (inv_wf _ Hinv) Hm)
      as (id & g & A & B & HA & HB & Hid & Hg & Heq).
    rewrite Heq in Hp. injection Hp as <-. cbn [games set_games].
    rewrite <-(values_opened self Hinv).
    pose proof (inv_opened _ Hinv) as Hinvo.
    assert (game_counter (opened self) ≠ 0) as Hz.
    { intros Hz. rewrite (inv_current _ Hinvo), decide_True in Hid by done. done. }
    destruct (inv_last _ Hinvo Hz) as (d & g' & Hd & Hfresh).
    rewrite (inv_current _ Hinvo), decide_False in Hid by done.
    injection Hid as <-. rewrite Hd in Hg |- *.
    rewrite get_snoc in Hg by done. injection Hg as ->.
    rewrite set_snoc by done. rewrite !values_app. cbn.
    by rewrite update_last_snoc, (event_update_eq g m A B).
Qed.

Lemma run_lines_snoc lines line :
  run_lines (lines ++ [line]) = (parse_line line (run_lines lines)).2.
Proof.
  pose proof (run_lines_app lines [line]) as Hr.
  rewrite for_each_cons in Hr.
  destruct (parse_line line (run_lines lines)) as [[[]|e] s'] eqn:Hp;
    cbn in Hr; [by injection Hr as <-|done].
Qed.

Lemma values_run_lines lines :
  Dict.values (games (run_lines lines)) = foldl line_step [] lines.
Proof.
  induction lines as [|line lines IH] using rev_ind; [done|].
  rewrite foldl_app, run_lines_snoc. cbn [foldl]. rewrite <-IH.
  destruct (values_parse_line line (run_lines lines)) as (s' & -> & _ & Hs');
    [apply run_lines_spec|done].
Qed.

(** X1: the games of a parse result, in order, are the fold of [line_step]
    over the lines of the file. *)
Theorem parse_is_fold (fs : filesystem) path lines self :
  fs !! path = Some (RegularFile lines) →
  ∃ d self',
    parse_log_file fs path self = (Return d, self')
    ∧ Dict.values d = foldl line_step [] lines.
Proof.
  intros Hf. eexists _, _. split; [by apply parse_log_file_regular|].
  apply values_run_lines.
Qed.

Lemma parse_is_fold_witness :
  ∃ d self',
    parse_log_file example_fs "log.txt" __init__ = (Return d, self')
    ∧ Dict.values d = foldl line_step [] example_log.
Proof.
  apply (parse_is_fold example_fs "log.txt" example_log __init__). reflexivity.
Defined.

(** * Consequences of the fold *)

Lemma update_last_app f (vs1 vs2 : list Game) :
  vs2 ≠ [] → update_last f (vs1 ++ vs2) = (vs1 ++ update_last f vs2)%list.
Proof.
  intros Hne. destruct (exists_last Hne) as (vs & g & ->).
  by rewrite app_assoc, !update_last_snoc, app_assoc.
Qed.

Lemma line_step_cases (vs : list Game) line :
  (is_ignored line = true ∧ is_marker line = false ∧ is_kill_line line = false
   ∧ line_step vs line = vs)
  ∨ (is_marker line = true ∧ is_kill_line line = false
     ∧ line_step vs line = (vs ++ [new_game])%list)
  ∨ (∃ m A B vs0 g,
       is_kill_line line = true ∧ is_marker line = false
       ∧ classify line = KillEvent m
       ∧ killer_name m = Some A ∧ victim_name m = Some B
       ∧ (match vs with [] => [new_game] | _ => vs end) = (vs0 ++ [g])%list
       ∧ line_step vs line = (vs0 ++ [kill_update A B g])%list).
Proof.
  unfold line_step. destruct (classify line) as [| |m] eqn:Hc.
  - left. pose proof (proj2 (classify_ignored line) Hc) as Hi.
    split; [done|]. unfold is_ignored, is_kill_line in *.
    apply andb_prop in Hi as [Hm%negb_true_iff Hk%bool_decide_eq_true].
    rewrite Hm, Hk. by split_and!.
  - right. left. unfold classify in Hc. unfold is_kill_line, is_marker.
    destruct (contains "InitGame:" line); [done|].
    by destruct (re_match kill_pattern (strip line)).
  - right. right.
    destruct (classify_KillEvent _ _ Hc) as ([A HA] & [B HB] & _).
    assert ((match vs with [] => [new_game] | _ => vs end) ≠ []) as Hne
      by by destruct vs.
    destruct (exists_last Hne) as (vs0 & g & Hvs).
    exists m, A, B, vs0, g. rewrite Hvs, update_last_snoc.
    rewrite (event_update_eq g m A B) by done.
    split_and!; try done.
    + apply classify_kill. eauto.
    + unfold classify in Hc. unfold is_marker.
      by destruct (contains "InitGame:" line).
Qed.

Lemma line_step_Forall (P : Game → Prop) (vs : list Game) line :
  P new_game → (∀ A B g, P g → P (kill_update A B g)) →
  Forall P vs → Forall P (line_step vs line).
Proof.
  intros Hnew Hupd Hvs.
  destruct (line_step_cases vs line)
    as [(_ & _ & _ & ->)|[(_ & _ & ->)|(m & A & B & vs0 & g & _ & _ & _ & _ & _ & Hvs0 & ->)]].
  - done.
  - apply Forall_app. split; [done|]. by constructor.
  - assert (Forall P (vs0 ++ [g])) as [? [? _]%Forall_cons]%Forall_app.
    { rewrite <-Hvs0. destruct vs; [by constructor|done]. }
    apply Forall_app. split; [done|]. constructor; [by apply Hupd|constructor].
Qed.

Lemma foldl_line_step_Forall (P : Game → Prop) lines :
  P new_game → (∀ A B g, P g → P (kill_update A B g)) →
  Forall P (foldl line_step [] lines).
Proof.
  intros Hnew Hupd. induction lines as [|line lines IH] using rev_ind.
  - constructor.
  - rewrite foldl_app. cbn [foldl]. by apply line_step_Forall.
Qed.

(** Every game of a parse result satisfies what [new_game] satisfies and
    [kill_update] preserves. *)
Lemma parse_games_Forall (P : Game → Prop) (fs : filesystem) path lines self :
  P new_game → (∀ A B g, P g → P (kill_update A B g)) →
  fs !! path = Some (RegularFile lines) →
  ∃ d self',
    parse_log_file fs path self = (Return d, self')
    ∧ ∀ id g, (id, g) ∈ d → P g.
Proof.
  intros Hnew Hupd Hf. eexists _, _.
  split; [by apply parse_log_file_regular|].
  intros id g Hin.
  pose proof (foldl_line_step_Forall P lines Hnew Hupd) as HF.
  rewrite <-values_run_lines, Forall_forall in HF. apply HF.
  unfold Dict.values. apply list_elem_of_fmap. by exists (id, g).
Qed.

(** ** Kill counts *)

Lemma foldl_sum_kills a (vs : list Game) :
  foldl (λ acc game, acc + total_kills game) a vs
  = a + foldl (λ acc game, acc + total_kills game) 0 vs.
Proof.
  revert a. induction vs as [|g vs IH]; intros a; simpl; [lia|].
  rewrite (IH (a + total_kills g)), (IH (0 + total_kills g)). lia.
Qed.

Lemma sum_kills_snoc (vs : list Game) g :
  foldl (λ acc game, acc + total_kills game) 0 (vs ++ [g])
  = foldl (λ acc game, acc + total_kills game) 0 vs + total_kills g.
Proof. by rewrite foldl_app. Qed.

Lemma sum_kills_line_step (vs : list Game) line :
  foldl (λ acc game, acc + total_kills game) 0 (line_step vs line)
  = foldl (λ acc game, acc + total_kills game) 0 vs
    + (if is_kill_line line then 1 else 0).
Proof.
  destruct (line_step_cases vs line)
    as [(_ & _ & -> & ->)|[(_ & -> & ->)|(m & A & B & vs0 & g & -> & _ & _ & _ & _ & Hvs0 & ->)]].
  - lia.
  - rewrite sum_kills_snoc. simpl. lia.
  - rewrite sum_kills_snoc. cbn [kill_update total_kills].
    assert (foldl (λ acc game, acc + total_kills game) 0 vs
            = foldl (λ acc game, acc + total_kills game) 0 (vs0 ++ [g])) as ->.
    { rewrite <-Hvs0. by destruct vs. }
    rewrite sum_kills_snoc. lia.
Qed.

Lemma sum_kills_foldl_line_step lines :
  foldl (λ acc game, acc + total_kills game) 0 (foldl line_step [] lines)
  = Z.of_nat (List.length (filter (λ line, is_kill_line line) lines)).
Proof.
  induction lines as [|line lines IH] using rev_ind; [done|].
  rewrite foldl_app. cbn [foldl]. rewrite sum_kills_line_step, IH.
  rewrite filter_app, length_app.
  destruct (is_kill_line line) eqn:Hk.
  - rewrite filter_cons_True by by rewrite Hk. simpl. lia.
  - rewrite filter_cons_False by (rewrite Hk; by intros []). simpl. lia.
Qed.

(** X2: the total that [main] prints as "Total Kills (all games)" is the
    number of kill-event lines of the log. *)
Theorem total_kills_counts_kill_lines (fs : filesystem) path lines self :
  fs !! path = Some (RegularFile lines) →
  ∃ d self',
    parse_log_file fs path self = (Return d, self')
    ∧ total_kills_all_games d
      = Z.of_nat (List.length (filter (λ line, is_kill_line line) lines)).
Proof.
  intros Hf. eexists _, _. split; [by apply parse_log_file_regular|].
  unfold total_kills_all_games. rewrite values_run_lines.
  apply sum_kills_foldl_line_step.
Qed.

Lemma total_kills_counts_kill_lines_witness :
  ∃ d self',
    parse_log_file example_fs "log.txt" __init__ = (Return d, self')
    ∧ total_kills_all_games d
      = Z.of_nat (List.length (filter (λ line, is_kill_line line) example_log)).
Proof.
  apply (total_kills_counts_kill_lines example_fs "log.txt" example_log __init__).
  reflexivity.
Defined.

(** ** Number of games *)

Lemma length_update_last f (vs : list Game) :
  List.length (update_last f vs) = List.length vs.
Proof.
  induction vs as [|g vs IH]; [done|].
  destruct vs; [done|]. cbn [update_last List.length] in *. by rewrite IH.
Qed.

Lemma length_foldl_line_step lines (vs : list Game) :
  List.length (foldl line_step vs lines)
  = (List.length vs + List.length (filter (λ line, is_marker line) lines)
     + (match vs with
        | [] => if starts_with_kill lines then 1 else 0
        | _ => 0
        end))%nat.
Proof.
  revert vs. induction lines as [|line lines IH]; intros vs.
  - simpl. destruct vs; simpl; lia.
  - cbn [foldl starts_with_kill]. rewrite IH.
    destruct (line_step_cases vs line)
      as [(_ & Hm & Hk & ->)|[(Hm & Hk & ->)|(m & A & B & vs0 & g & Hk & Hm & _ & _ & _ & Hvs0 & ->)]];
      rewrite Hm, ?Hk.
    + rewrite filter_cons_False by (rewrite Hm; by intros []). done.
    + rewrite filter_cons_True by by rewrite Hm.
      rewrite length_app. destruct vs; simpl; lia.
    + rewrite filter_cons_False by (rewrite Hm; by intros []).
      apply (f_equal List.length) in Hvs0. rewrite !length_app in *.
      destruct vs, vs0; simpl in *; lia.
Qed.

(** X3: a parse result has one match per line containing [InitGame:], and
    one more when the first line that is not ignored is a kill event. *)
Theorem number_of_games (fs : filesystem) path lines self :
  fs !! path = Some (RegularFile lines) →
  ∃ d self',
    parse_log_file fs path self = (Return d, self')
    ∧ total_games d
      = Z.of_nat (List.length (filter (λ line, contains "InitGame:" line) lines))
        + (if starts_with_kill lines then 1 else 0).
Proof.
  intros Hf. eexists _, _. split; [by apply parse_log_file_regular|].
  unfold total_games.
  replace (List.length (games (run_lines lines)))
    with (List.length (Dict.values (games (run_lines lines))))
    by (unfold Dict.values; apply length_fmap).
  rewrite values_run_lines, length_foldl_line_step. unfold is_marker. simpl.
  destruct (starts_with_kill lines); lia.
Qed.

Lemma number_of_games_witness :
  ∃ d self',
    parse_log_file {[ "full.log" := RegularFile headless_log ]} "full.log" __init__
    = (Return d, self')
    ∧ total_games d
      = Z.of_nat (List.length (filter (λ line, contains "InitGame:" line) headless_log))
        + (if starts_with_kill headless_log then 1 else 0).
Proof.
  apply (number_of_games {[ "full.log" := RegularFile headless_log ]} "full.log"
           headless_log __init__).
  reflexivity.
Defined.

(** ** What holds of every game of a result *)

(** X4: in every match of a parse result [players] is sorted and has no
    duplicates. *)
Theorem players_sorted_nodup (fs : filesystem) path lines self :
  fs !! path = Some (RegularFile lines) →
  ∃ d self',
    parse_log_file fs path self = (Return d, self')
    ∧ ∀ id g, (id, g) ∈ d → Sorted String.le (players g) ∧ NoDup (players g).
Proof.
  apply (parse_games_Forall
           (λ g, Sorted String.le (players g) ∧ NoDup (players g))).
  - split; constructor.
  - intros A B g _. unfold kill_update. cbn [players].
    split; [apply sorted_Sorted|].
    unfold sorted. rewrite merge_sort_Permutation. apply NoDup_elements.
Qed.

Lemma players_sorted_nodup_witness :
  ∃ d self',
    parse_log_file example_fs "log.txt" __init__ = (Return d, self')
    ∧ ∀ id g, (id, g) ∈ d → Sorted String.le (players g) ∧ NoDup (players g).
Proof.
  apply (players_sorted_nodup example_fs "log.txt" example_log __init__).
  reflexivity.
Defined.

(** X5: in every match of a parse result each score lies between
    [-total_kills] and [total_kills]. *)
Theorem scores_bounded (fs : filesystem) path lines self :
  fs !! path = Some (RegularFile lines) →
  ∃ d self',
    parse_log_file fs path self = (Return d, self')
    ∧ ∀ id g name score,
        (id, g) ∈ d → kills g !! name = Some score →
        (- total_kills g ≤ score ≤ total_kills g)%Z.
Proof.
  intros Hf.
  destruct (parse_games_Forall
              (λ g, (0 ≤ total_kills g)%Z
                    ∧ ∀ name score, kills g !! name = Some score →
                                    (- total_kills g ≤ score ≤ total_kills g)%Z)
              fs path lines self) as (d & s' & Hp & Hd); [| |done|].
  - split; [done|]. intros name score. cbn. by rewrite lookup_empty.
  - intros A B g [Ht Hs]. split; [cbn; lia|]. intros name score.
    unfold kill_update, defaultdict_add. cbn [kills total_kills].
    repeat case_decide.
    + rewrite lookup_insert. case_decide.
      * intros [= <-]. destruct (kills g !! B) as [s|] eqn:E; simpl.
        -- apply Hs in E. lia.
        -- lia.
      * intros E%Hs. lia.
    + intros E%Hs. lia.
    + rewrite lookup_insert. case_decide.
      * intros [= <-]. destruct (kills g !! A) as [s|] eqn:E; simpl.
        -- apply Hs in E. lia.
        -- lia.
      * intros E%Hs. lia.
  - exists d, s'. split; [done|]. intros id g name score Hin.
    by apply (Hd id g Hin).
Qed.

Lemma scores_bounded_witness :
  ∃ d self',
    parse_log_file example_fs "log.txt" __init__ = (Return d, self')
    ∧ ∀ id g name score,
        (id, g) ∈ d → kills g !! name = Some score →
        (- total_kills g ≤ score ≤ total_kills g)%Z.
Proof.
  apply (scores_bounded example_fs "log.txt" example_log __init__). reflexivity.
Defined.

(** X6: no match of a parse result has a score for [<world>]. *)
Theorem world_never_scored (fs : filesystem) path lines self :
  fs !! path = Some (RegularFile lines) →
  ∃ d self',
    parse_log_file fs path self = (Return d, self')
    ∧ ∀ id g, (id, g) ∈ d → kills g !! "<world>" = None.
Proof.
  apply (parse_games_Forall (λ g, kills g !! "<world>" = None)).
  - done.
  - intros A B g Hg. unfold kill_update, defaultdict_add, world. cbn [kills].
    repeat case_decide; try done; by rewrite lookup_insert_ne.
Qed.

Lemma world_never_scored_witness :
  ∃ d self',
    parse_log_file example_fs "log.txt" __init__ = (Return d, self')
    ∧ ∀ id g, (id, g) ∈ d → kills g !! "<world>" = None.
Proof.
  apply (world_never_scored example_fs "log.txt" example_log __init__).
  reflexivity.
Defined.

(** ** Matches are independent of what precedes their marker *)

Lemma line_step_app (vs1 vs2 : list Game) line :
  vs2 ≠ [] →
  line_step (vs1 ++ vs2)%list line = (vs1 ++ line_step vs2 line)%list
  ∧ line_step vs2 line ≠ [].
Proof.
  intros Hne. unfold line_step. destruct (classify line).
  - done.
  - split; [by rewrite app_assoc|]. by destruct vs2.
  - assert ((match (vs1 ++ vs2)%list with
             | [] => [new_game]
             | _ => (vs1 ++ vs2)%list
             end) = (vs1 ++ vs2)%list) as ->.
    { destruct vs1; [by destruct vs2|done]. }
    assert ((match vs2 with [] => [new_game] | _ => vs2 end) = vs2) as ->
      by by destruct vs2.
    split; [by apply update_last_app|].
    destruct (exists_last Hne) as (vs & g & ->). rewrite update_last_snoc.
    by destruct vs.
Qed.

Lemma foldl_line_step_app lines (vs1 vs2 : list Game) :
  vs2 ≠ [] →
  foldl line_step (vs1 ++ vs2)%list lines
  = (vs1 ++ foldl line_step vs2 lines)%list.
Proof.
  revert vs2. induction lines as [|line lines IH]; intros vs2 Hne; [done|].
  cbn [foldl]. destruct (line_step_app vs1 vs2 line Hne) as [-> ?].
  by apply IH.
Qed.

Lemma line_step_marker (vs : list Game) line :
  contains "InitGame:" line = true → line_step vs line = (vs ++ [new_game])%list.
Proof. intros Hm. unfold line_step. by rewrite (classify_marker line Hm). Qed.

(** X7: the matches that follow a marker do not depend on the lines before
    it, and those before it are not changed by the lines after it: the games
    of the whole log are those of the part before the marker followed by
    those of the part from the marker on. *)
Theorem marker_splits_parse (fs fs1 fs2 : filesystem) path path1 path2
    lines1 marker lines2 self self1 self2 :
  fs !! path = Some (RegularFile (lines1 ++ marker :: lines2)) →
  fs1 !! path1 = Some (RegularFile lines1) →
  fs2 !! path2 = Some (RegularFile (marker :: lines2)) →
  contains "InitGame:" marker = true →
  ∃ d d1 d2 s s1 s2,
    parse_log_file fs path self = (Return d, s)
    ∧ parse_log_file fs1 path1 self1 = (Return d1, s1)
    ∧ parse_log_file fs2 path2 self2 = (Return d2, s2)
    ∧ Dict.values d = (Dict.values d1 ++ Dict.values d2)%list.
Proof.
  intros Hf Hf1 Hf2 Hm. eexists _, _, _, _, _, _.
  split; [by apply parse_log_file_regular|].
  split; [by apply parse_log_file_regular|].
  split; [by apply parse_log_file_regular|].
  rewrite !values_run_lines, foldl_app. cbn [foldl].
  rewrite !(line_step_marker _ marker Hm).
  by rewrite foldl_line_step_app.
Qed.

Lemma marker_splits_parse_witness :
  ∃ d d1 d2 s s1 s2,
    parse_log_file split_fs "whole.log" __init__ = (Return d, s)
    ∧ parse_log_file split_fs "first.log" __init__ = (Return d1, s1)
    ∧ parse_log_file split_fs "second.log" __init__ = (Return d2, s2)
    ∧ Dict.values d = (Dict.values d1 ++ Dict.values d2)%list.
Proof.
  apply (marker_splits_parse split_fs split_fs split_fs
           "whole.log" "first.log" "second.log"
           (take 3 example_log) "  0:15 InitGame: \sv_floodProtect\1\sv_maxPing\0"
           [ "  0:20 Kill: 5 6 7: Carol killed Dave by MOD_SHOTGUN" ]);
    reflexivity.
Defined.

(** ** Lines that change nothing can be left out *)

Lemma for_each_filter_ignored lines self :
  for_each (filter (λ line, is_ignored line = false) lines) parse_line self
  = for_each lines parse_line self.
Proof.
  revert self. induction lines as [|line lines IH]; intros self; [done|].
  destruct (is_ignored line) eqn:Hi.
  - rewrite filter_cons_False by (rewrite Hi; done).
    rewrite for_each_cons, parse_line_classify.
    apply classify_ignored in Hi as ->. apply IH.
  - rewrite filter_cons_True by by rewrite Hi.
    rewrite !for_each_cons.
    destruct (parse_line line self) as [[[]|e] s']; [apply IH|done].
Qed.

(** X10: deleting from a log the lines that are neither markers nor kill
    events changes neither the result of the parse nor the state it leaves. *)
Theorem ignored_lines_removable (fs fs' : filesystem) path path' lines self self' :
  fs !! path = Some (RegularFile lines) →
  fs' !! path' = Some (RegularFile (filter (λ line, is_ignored line = false) lines)) →
  parse_log_file fs' path' self' = parse_log_file fs path self.
Proof.
  intros Hf Hf'.
  rewrite (parse_log_file_regular _ _ _ _ Hf), (parse_log_file_regular _ _ _ _ Hf').
  unfold run_lines. by rewrite for_each_filter_ignored.
Qed.

Lemma ignored_lines_removable_witness :
  parse_log_file noisy_fs "clean.log" __init__
  = parse_log_file noisy_fs "noisy.log" __init__.
Proof.
  apply (ignored_lines_removable noisy_fs noisy_fs "noisy.log" "clean.log"
           noisy_log); reflexivity.
Defined.

(** * Match ids and the match started by a kill event (C1, C5) *)

Lemma line_step_lookup (vs : list Game) line i g1 :
  vs !! i = Some g1 →
  ∃ g2 ms,
    line_step vs line !! i = Some g2
    ∧ Forall kill_event ms ∧ g2 = foldl event_update g1 ms
    ∧ (S i < List.length vs → g2 = g1)%nat
    ∧ (List.length vs ≤ List.length (line_step vs line))%nat.
Proof.
  intros Hi.
  destruct (line_step_cases vs line)
    as [(_ & _ & _ & ->)|[(_ & _ & ->)|(m & A & B & vs0 & g & _ & _ & Hc & HA & HB & Hvs0 & ->)]].
  - exists g1, []. by split_and!.
  - exists g1, []. split_and!; try done.
    + by apply lookup_app_l_Some.
    + rewrite length_app. lia.
  - assert (vs = (vs0 ++ [g])%list) as ->.
    { destruct vs; [by rewrite lookup_nil in Hi|done]. }
    rewrite !length_app. cbn [List.length].
    destruct (decide (i < List.length vs0)%nat) as [Hlt|Hge].
    + exists g1, []. rewrite lookup_app_l in Hi |- * by done.
      split_and!; try done.
    + apply lookup_lt_Some in Hi as Hlen. rewrite length_app in Hlen.
      cbn [List.length] in Hlen. assert (i = List.length vs0) as -> by lia.
      rewrite list_lookup_middle in Hi by done. injection Hi as <-.
      exists (kill_update A B g), [m]. split_and!.
      * by rewrite list_lookup_middle.
      * constructor; [by eapply classify_KillEvent|constructor].
      * cbn [foldl]. by rewrite (event_update_eq _ _ A B).
      * lia.
      * lia.
Qed.

Lemma foldl_line_step_lookup lines (vs : list Game) i g1 :
  vs !! i = Some g1 →
  ∃ g2 ms,
    foldl line_step vs lines !! i = Some g2
    ∧ Forall kill_event ms ∧ g2 = foldl event_update g1 ms
    ∧ (S i < List.length vs → g2 = g1)%nat.
Proof.
  revert vs g1. induction lines as [|line lines IH]; intros vs g1 Hi.
  - exists g1, []. by split_and!.
  - cbn [foldl].
    destruct (line_step_lookup vs line i g1 Hi) as (g2 & ms & Hg2 & Hms & -> & Hfix & Hlen).
    destruct (IH _ _ Hg2) as (g3 & ms' & Hg3 & Hms' & -> & Hfix').
    exists (foldl event_update (foldl event_update g1 ms) ms'), (ms ++ ms')%list.
    split_and!; try done.
    + by apply Forall_app.
    + by rewrite foldl_app.
    + intros Hlt. rewrite Hfix' by lia. by apply Hfix.
Qed.

Lemma inv_lookup_key self i id g :
  inv self → games self !! i = Some (id, g) → id = game_id (Z.of_nat i + 1).
Proof.
  intros Hinv Hi.
  assert (Dict.keys (games self) !! i = Some id) as Hk.
  { unfold Dict.keys. by rewrite list_lookup_fmap, Hi. }
  rewrite (inv_keys _ Hinv), list_lookup_fmap in Hk.
  destruct (seqZ 1 (game_counter self) !! i) as [n|] eqn:Hn; [|done].
  apply lookup_seqZ in Hn as [-> _]. injection Hk as <-. f_equal. lia.
Qed.

Lemma inv_lookup_value self i g :
  inv self → Dict.values (games self) !! i = Some g →
  games self !! i = Some (game_id (Z.of_nat i + 1), g).
Proof.
  intros Hinv Hi. unfold Dict.values in Hi. rewrite list_lookup_fmap in Hi.
  destruct (games self !! i) as [[id g']|] eqn:Hg; [|done].
  injection Hi as ->. by rewrite (inv_lookup_key self i id g Hinv Hg).
Qed.

Lemma length_run_lines lines :
  List.length (games (run_lines lines)) = match_starts lines.
Proof.
  replace (List.length (games (run_lines lines)))
    with (List.length (Dict.values (games (run_lines lines))))
    by (unfold Dict.values; apply length_fmap).
  rewrite values_run_lines, length_foldl_line_step. unfold match_starts.
  cbn [List.length]. lia.
Qed.

Lemma keys_run_lines lines :
  Dict.keys (games (run_lines lines))
  = game_id <$> seqZ 1 (Z.of_nat (List.length (games (run_lines lines)))).
Proof.
  destruct (run_lines_spec lines) as [_ [Hc Hk _ _]].
  rewrite Hk. f_equal. f_equal.
  apply (f_equal List.length) in Hk. unfold Dict.keys in Hk.
  rewrite !length_fmap, length_seqZ in Hk. lia.
Qed.

Lemma run_lines_lookup lines1 lines2 i id g1 :
  games (run_lines lines1) !! i = Some (id, g1) →
  id = game_id (Z.of_nat i + 1)
  ∧ ∃ g2 ms,
      games (run_lines (lines1 ++ lines2)) !! i = Some (id, g2)
      ∧ Forall kill_event ms ∧ g2 = foldl event_update g1 ms
      ∧ (S i < List.length (games (run_lines lines1)) → g2 = g1)%nat.
Proof.
  intros Hi.
  pose proof (inv_lookup_key _ i id g1 (proj2 (run_lines_spec lines1)) Hi) as ->.
  split; [done|].
  assert (foldl line_step [] lines1 !! i = Some g1) as Hv.
  { rewrite <-values_run_lines. unfold Dict.values.
    by rewrite list_lookup_fmap, Hi. }
  destruct (foldl_line_step_lookup lines2 _ i g1 Hv)
    as (g2 & ms & Hg2 & Hms & -> & Hfix).
  exists (foldl event_update g1 ms), ms. split_and!; try done.
  - apply inv_lookup_value; [apply run_lines_spec|].
    by rewrite values_run_lines, foldl_app.
  - intros Hlt. apply Hfix.
    replace (List.length (foldl line_step [] lines1))
      with (List.length (games (run_lines lines1))); [done|].
    rewrite <-values_run_lines. unfold Dict.values. by rewrite length_fmap.
Qed.

(** C1 (amended): the keys of a parse result are [game_1], [game_2], ... in
    insertion order, numbered from 1 without gaps, one for each match the log
    starts (a marker, or a kill event before the first marker), and the
    games under them are, in that order, the matches the lines build up.
    A match keeps the id it was given: the entry at a position of the result
    for a prefix of the log is, in the result for the whole log, at the same
    position and under the same id, [game_] and the position counted from 1;
    its game is the one of the prefix with further kill events added, and
    the very same game unless it is the last one of the prefix. *)
Theorem parse_keys_sequential (fs1 fs2 : filesystem) path1 path2 lines1 lines2 self1 self2 :
  fs1 !! path1 = Some (RegularFile lines1) →
  fs2 !! path2 = Some (RegularFile (lines1 ++ lines2)) →
  ∃ d1 d2 s1 s2,
    parse_log_file fs1 path1 self1 = (Return d1, s1)
    ∧ parse_log_file fs2 path2 self2 = (Return d2, s2)
    ∧ Dict.keys d2 = game_id <$> seqZ 1 (Z.of_nat (List.length d2))
    ∧ Dict.keys d1 `prefix_of` Dict.keys d2
    ∧ List.length d1 = match_starts lines1
    ∧ List.length d2 = match_starts (lines1 ++ lines2)
    ∧ Dict.values d2 = foldl line_step [] (lines1 ++ lines2)
    ∧ ∀ (i : nat) id g1,
        d1 !! i = Some (id, g1) →
        id = game_id (Z.of_nat i + 1)
        ∧ ∃ g2 ms,
            d2 !! i = Some (id, g2)
            ∧ Forall kill_event ms ∧ g2 = foldl event_update g1 ms
            ∧ (S i < List.length d1 → g2 = g1)%nat.
Proof.
  intros H1 H2. eexists _, _, _, _.
  split; [by apply parse_log_file_regular|].
  split; [by apply parse_log_file_regular|].
  split; [apply keys_run_lines|].
  split; [apply keys_monotone|].
  split; [apply length_run_lines|].
  split; [apply length_run_lines|].
  split; [apply values_run_lines|].
  apply run_lines_lookup.
Qed.

Lemma parse_keys_sequential_witness :
  ∃ d1 d2 s1 s2,
    parse_log_file {[ "head.log" := RegularFile (take 3 headless_log) ]}
      "head.log" __init__ = (Return d1, s1)
    ∧ parse_log_file {[ "full.log" := RegularFile (take 3 headless_log ++ drop 3 headless_log) ]}
        "full.log" __init__ = (Return d2, s2)
    ∧ Dict.keys d2 = game_id <$> seqZ 1 (Z.of_nat (List.length d2))
    ∧ Dict.keys d1 `prefix_of` Dict.keys d2
    ∧ List.length d1 = match_starts (take 3 headless_log)
    ∧ List.length d2 = match_starts (take 3 headless_log ++ drop 3 headless_log)
    ∧ Dict.values d2 = foldl line_step [] (take 3 headless_log ++ drop 3 headless_log)
    ∧ ∀ (i : nat) id g1,
        d1 !! i = Some (id, g1) →
        id = game_id (Z.of_nat i + 1)
        ∧ ∃ g2 ms,
            d2 !! i = Some (id, g2)
            ∧ Forall kill_event ms ∧ g2 = foldl event_update g1 ms
            ∧ (S i < List.length d1 → g2 = g1)%nat.
Proof.
  apply (parse_keys_sequential
           {[ "head.log" := RegularFile (take 3 headless_log) ]}
           {[ "full.log" := RegularFile (take 3 headless_log ++ drop 3 headless_log) ]}
           "head.log" "full.log" (take 3 headless_log) (drop 3 headless_log));
    reflexivity.
Defined.

Lemma filter_marker_ignored pre :
  Forall (λ l, is_ignored l = true) pre →
  filter (λ l, is_marker l) pre = [].
Proof.
  induction 1 as [|l pre Hl _ IH]; [done|].
  rewrite filter_cons_False; [done|].
  unfold is_ignored in Hl. apply andb_prop in Hl as [Hl _].
  destruct (is_marker l); [done|]. by intros [].
Qed.

Lemma values_kill_first pre line rest A B :
  run_lines (pre ++ [line])
  = MkParser [(game_id 1, kill_update A B new_game)] (Some (game_id 1)) 1 →
  Dict.values (games (run_lines (pre ++ line :: rest)))
  = foldl line_step [kill_update A B new_game] rest.
Proof.
  intros Hr. rewrite values_run_lines, (cons_middle line pre rest), app_assoc.
  by rewrite foldl_app, <-values_run_lines, Hr.
Qed.

(** C5 (amended): when the first line the parser recognises is a kill event,
    reading up to that line gives exactly one match, under the key [game_1],
    with [total_kills = 1] and the players of that kill.  In the result for
    the whole log the first match is [game_1] and still holds that kill; the
    keys are [game_1], [game_2], ...; there is one match more than the log
    has markers, so that one match only was created without a marker; and
    the games are what the remaining lines make of that one match. *)
Theorem kill_before_marker (fs0 fs : filesystem) path0 path pre line rest m self0 self :
  fs0 !! path0 = Some (RegularFile (pre ++ [line])) →
  fs !! path = Some (RegularFile (pre ++ line :: rest)) →
  (∀ l, l ∈ pre → is_ignored l = true) →
  is_marker line = false →
  re_match kill_pattern (strip line) = Some m →
  ∃ A B g0 s0 d s g tl,
    killer_name m = Some A ∧ victim_name m = Some B
    ∧ parse_log_file fs0 path0 self0 = (Return [("game_1", g0)], s0)
    ∧ total_kills g0 = 1
    ∧ (∀ name, name ∈ players g0 ↔ name ≠ "<world>" ∧ (name = A ∨ name = B))
    ∧ parse_log_file fs path self = (Return d, s)
    ∧ d = ("game_1", g) :: tl
    ∧ (1 ≤ total_kills g)%Z
    ∧ (∀ name, name ∈ players g0 → name ∈ players g)
    ∧ Dict.keys d = game_id <$> seqZ 1 (Z.of_nat (List.length d))
    ∧ List.length d
      = S (List.length (filter (λ l, is_marker l) (pre ++ line :: rest)%list))
    ∧ Dict.values d = foldl line_step [g0] rest.
Proof.
  intros Hf0 Hf Hpre%Forall_forall Hm Hk.
  destruct (run_lines_kill_first pre line m Hpre Hm Hk) as (A & B & HA & HB & Hr).
  pose proof (run_lines_app (pre ++ [line]) rest) as Hrest.
  rewrite <-app_assoc in Hrest. simpl in Hrest.
  destruct (first_game_for_each A B rest (run_lines (pre ++ [line])))
    as (s & Hs & g & tl & Hgs & Ht & Hp).
  { apply run_lines_spec. }
  { rewrite Hr. simpl. eexists _, _. split; [done|]. split; [done|].
    intros name ? ?. apply elem_of_kill_update_players. right. done. }
  rewrite Hs in Hrest. injection Hrest as Hrest.
  exists A, B, (kill_update A B new_game). eexists. eexists. eexists.
  exists g, tl. split; [done|]. split; [done|].
  split. { rewrite (parse_log_file_regular _ _ _ _ Hf0), Hr. done. }
  split; [done|].
  assert (∀ name, name ∈ players (kill_update A B new_game)
                  ↔ name ≠ "<world>" ∧ (name = A ∨ name = B)) as Hpl.
  { intros name. rewrite elem_of_kill_update_players. simpl.
    rewrite elem_of_nil. unfold world. naive_solver. }
  split; [done|].
  split. { by rewrite (parse_log_file_regular _ _ _ _ Hf). }
  split. { by rewrite <-Hrest, Hgs. }
  split; [done|].
  split. { intros name [? ?]%Hpl. by apply Hp. }
  pose proof (values_kill_first pre line rest A B Hr) as Hv.
  split; [apply keys_run_lines|].
  split; [|done].
  replace (List.length (games (run_lines (pre ++ line :: rest))))
    with (List.length (Dict.values (games (run_lines (pre ++ line :: rest)))))
    by (unfold Dict.values; apply length_fmap).
  rewrite Hv, length_foldl_line_step, filter_app, (filter_marker_ignored pre Hpre).
  rewrite filter_cons_False by (rewrite Hm; by intros []).
  cbn [List.length app]. lia.
Qed.

Lemma kill_before_marker_witness :
  ∃ A B g0 s0 d s g tl,
    killer_name (match_of alice_bob_line) = Some A
    ∧ victim_name (match_of alice_bob_line) = Some B
    ∧ parse_log_file
        {[ "head.log" := RegularFile (headless_log_prefix ++ [alice_bob_line]) ]}
        "head.log" __init__ = (Return [("game_1", g0)], s0)
    ∧ total_kills g0 = 1
    ∧ (∀ name, name ∈ players g0 ↔ name ≠ "<world>" ∧ (name = A ∨ name = B))
    ∧ parse_log_file
        {[ "full.log" :=
             RegularFile (headless_log_prefix ++ alice_bob_line :: headless_log_rest) ]}
        "full.log" __init__ = (Return d, s)
    ∧ d = ("game_1", g) :: tl
    ∧ (1 ≤ total_kills g)%Z
    ∧ (∀ name, name ∈ players g0 → name ∈ players g)
    ∧ Dict.keys d = game_id <$> seqZ 1 (Z.of_nat (List.length d))
    ∧ List.length d
      = S (List.length
             (filter (λ l, is_marker l)
                (headless_log_prefix ++ alice_bob_line :: headless_log_rest)%list))
    ∧ Dict.values d = foldl line_step [g0] headless_log_rest.
Proof.
  apply (kill_before_marker
           {[ "head.log" := RegularFile (headless_log_prefix ++ [alice_bob_line]) ]}
           {[ "full.log" :=
                RegularFile (headless_log_prefix ++ alice_bob_line :: headless_log_rest) ]}
           "head.log" "full.log" headless_log_prefix alice_bob_line headless_log_rest
           (match_of alice_bob_line)).
  - reflexivity.
  - reflexivity.
  - intros l Hin. unfold headless_log_prefix in Hin.
    repeat (apply elem_of_cons in Hin as [->|Hin]; [vm_compute; reflexivity|]).
    by apply elem_of_nil in Hin.
  - vm_compute; reflexivity.
  - vm_compute; reflexivity.
Defined.

(** * The loop body on one line *)

(** X8: a line that contains [InitGame:] opens a new, empty match whatever
    else it holds (also when it has the shape of a kill event): the counter
    goes up by one, the new match is current, and the matches stored under
    other keys are left as they were. *)
Theorem marker_takes_precedence line self :
  contains "InitGame:" line = true →
  ∃ self',
    parse_line line self = (Return tt, self')
    ∧ game_counter self' = game_counter self + 1
    ∧ current_game_id self' = Some (game_id (game_counter self + 1))
    ∧ current_game self' = Some new_game
    ∧ ∀ id, id ≠ game_id (game_counter self + 1) →
            Dict.get id (games self') = Dict.get id (games self).
Proof.
  intros Hm. rewrite parse_line_classify, (classify_marker line Hm).
  rewrite start_new_game_eq. eexists. split; [done|]. cbn.
  split; [done|]. split; [done|].
  split; [apply get_set_eq|]. intros id Hne. by apply get_set_ne.
Qed.

Lemma marker_takes_precedence_witness :
  is_Some (re_match kill_pattern (strip marker_in_kill_line))
  ∧ ∃ self',
      parse_line marker_in_kill_line
        (MkParser [("game_1", new_game)] (Some "game_1") 1) = (Return tt, self')
      ∧ game_counter self' = 1 + 1
      ∧ current_game_id self' = Some (game_id (1 + 1))
      ∧ current_game self' = Some new_game
      ∧ ∀ id, id ≠ game_id (1 + 1) →
              Dict.get id (games self') = Dict.get id [("game_1", new_game)].
Proof.
  split; [vm_compute; by eexists|].
  apply (marker_takes_precedence marker_in_kill_line
           (MkParser [("game_1", new_game)] (Some "game_1") 1)).
  reflexivity.
Defined.

Lemma lstrip_all_space pad :
  all_chars Chars.isspace pad = true → lstrip pad = "".
Proof.
  induction pad as [|c pad IH]; [done|]. cbn [lstrip rstrip all_chars append].
  intros [-> ?]%andb_prop. by apply IH.
Qed.

Lemma rstrip_all_space pad :
  all_chars Chars.isspace pad = true → rstrip pad = "".
Proof.
  induction pad as [|c pad IH]; [done|]. cbn [lstrip rstrip all_chars append].
  intros [-> ?]%andb_prop. by rewrite IH.
Qed.

Lemma lstrip_app_space pad s :
  all_chars Chars.isspace pad = true → lstrip (pad ++ s) = lstrip s.
Proof.
  induction pad as [|c pad IH]; [done|].
  change (String c pad ++ s) with (String c (pad ++ s)). cbn [lstrip all_chars].
  intros [-> ?]%andb_prop. by apply IH.
Qed.

Lemma rstrip_app_space s pad :
  all_chars Chars.isspace pad = true → rstrip (s ++ pad) = rstrip s.
Proof.
  intros Hp. induction s as [|c s IH]; [by apply rstrip_all_space|].
  change (String c s ++ pad) with (String c (s ++ pad)). cbn [rstrip].
  by rewrite IH.
Qed.

Lemma strip_app_space s pad :
  all_chars Chars.isspace pad = true → strip (s ++ pad) = strip s.
Proof.
  intros Hp. unfold strip. induction s as [|c s IH].
  - change ("" ++ pad) with pad. by rewrite lstrip_all_space.
  - change (String c s ++ pad) with (String c (s ++ pad)). cbn [lstrip].
    destruct (Chars.isspace c); [done|].
    by apply (rstrip_app_space (String c s)).
Qed.

Lemma strip_padded pad1 line pad2 :
  all_chars Chars.isspace pad1 = true → all_chars Chars.isspace pad2 = true →
  strip (pad1 ++ line ++ pad2) = strip line.
Proof.
  intros H1 H2. unfold strip. rewrite lstrip_app_space by done.
  by apply strip_app_space.
Qed.

(** X9: white space around a line is insignificant: with any white space
    (line terminators included) put before and after it, a line is processed
    as it is without. *)
Theorem padding_insignificant pad1 line pad2 :
  all_chars Chars.isspace pad1 = true → all_chars Chars.isspace pad2 = true →
  parse_line (pad1 ++ line ++ pad2) = parse_line line.
Proof.
  intros H1 H2. unfold parse_line. by rewrite strip_padded.
Qed.

Lemma padding_insignificant_witness :
  parse_line ("   " ++ "0:05 Kill: 1 2 3: Alice killed Bob by MOD_ROCKET" ++ line_end)
  = parse_line "0:05 Kill: 1 2 3: Alice killed Bob by MOD_ROCKET".
Proof.
  apply (padding_insignificant "   "
           "0:05 Kill: 1 2 3: Alice killed Bob by MOD_ROCKET" line_end);
    reflexivity.
Defined.

(** * [get_formatted_results] and the summary of [main] *)

Lemma get_elem_of_NoDup {V} id (g : V) (d : list (string * V)) :
  NoDup (Dict.keys d) → (id, g) ∈ d → Dict.get id d = Some g.
Proof.
  unfold Dict.keys. induction d as [|[k v] d IH]; simpl.
  - by intros _ ?%elem_of_nil.
  - intros [Hk Hd]%NoDup_cons [[= -> ->]|Hin]%elem_of_cons.
    + by rewrite decide_True.
    + rewrite decide_False; [by apply IH|]. intros ->. apply Hk.
      apply list_elem_of_fmap. by exists (k, g).
Qed.

Lemma inv_keys_NoDup self : inv self → NoDup (Dict.keys (games self)).
Proof.
  intros Hinv. rewrite (inv_keys _ Hinv).
  apply NoDup_fmap_2; [apply game_id_inj|apply NoDup_seqZ].
Qed.

Lemma finalize_games_items items self :
  (∀ id g, (id, g) ∈ items → Dict.get id (games self) = Some g) →
  for_each items
    (λ item,
       game ← games_getitem item.1;
       modify (λ self,
         set_games
           (Dict.set item.1
              (MkGame (total_kills game) (players game) (kills item.2))
              (games self))
           self)) self
  = (Return tt, self).
Proof.
  intros Hitems. induction items as [|[id g] items IH]; [done|].
  rewrite for_each_cons. unfold mbind, M_bind, bind, games_getitem, modify.
  cbn [fst snd]. rewrite (Hitems id g) by by left.
  assert (MkGame (total_kills g) (players g) (kills g) = g) as -> by by destruct g.
  rewrite set_get_id by (apply Hitems; by left).
  assert (set_games (games self) self = self) as -> by by destruct self.
  apply IH. intros id' g' Hin. apply Hitems. by right.
Qed.

Lemma finalize_games_NoDup self :
  NoDup (Dict.keys (games self)) → _finalize_games self = (Return tt, self).
Proof.
  intros Hnd. unfold _finalize_games, mbind, M_bind, bind, gets.
  apply finalize_games_items. intros id g. by apply get_elem_of_NoDup.
Qed.

Lemma get_formatted_results_run_lines lines :
  get_formatted_results (run_lines lines)
  = (Return (games (run_lines lines)), run_lines lines).
Proof.
  unfold get_formatted_results, mbind, M_bind, bind.
  rewrite finalize_games_NoDup; [done|].
  apply inv_keys_NoDup, run_lines_spec.
Qed.

(** X12: after a parse, [get_formatted_results] raises nothing and returns
    a mapping equal to the one the parse returned: the same ids in the same
    order, and for each the same total, players and score entries.  (Equal
    as Python compares mappings, by their entries; the scores of the
    returned games are plain dicts.) *)
Theorem formatted_results_are_parse_results (fs : filesystem) path lines self :
  fs !! path = Some (RegularFile lines) →
  ∃ d self',
    parse_log_file fs path self = (Return d, self')
    ∧ (get_formatted_results self').1 = Return d.
Proof.
  intros Hf. eexists _, _. split; [by apply parse_log_file_regular|].
  by rewrite get_formatted_results_run_lines.
Qed.

Lemma formatted_results_are_parse_results_witness :
  ∃ d self',
    parse_log_file example_fs "log.txt" __init__ = (Return d, self')
    ∧ (get_formatted_results self').1 = Return d.
Proof.
  apply (formatted_results_are_parse_results example_fs "log.txt" example_log).
  reflexivity.
Defined.

(** ** Exit status *)

Lemma main_eq (fs : filesystem) :
  main fs
  = match fs !! "log.txt" with
    | Some (RegularFile _) => 0
    | _ => 1
    end.
Proof.
  unfold main, log_file_path.
  destruct (fs !! "log.txt") as [[lines| |lines]|] eqn:Hf.
  - by rewrite (parse_log_file_regular _ _ _ _ Hf),
      get_formatted_results_run_lines.
  - by rewrite (parse_log_file_directory _ _ _ Hf).
  - by rewrite (parse_log_file_undecodable _ _ _ _ Hf).
  - by rewrite (parse_log_file_missing _ _ _ Hf).
Qed.

(** X16: [main] returns 0 when [log.txt] is a file of UTF-8 text, and 1 when
    it is missing, cannot be opened or does not decode. *)
Theorem main_exit_status (fs : filesystem) :
  main fs
  = match fs !! "log.txt" with
    | Some (RegularFile _) => 0
    | _ => 1
    end.
Proof. apply main_eq. Qed.

(** X17: the runner of [test.py] returns 0 exactly when [log.txt] is a
    file of UTF-8 text at both of its calls of [main], and 1 otherwise; what
    it reports as the test result is a second run of the parser. *)
Theorem test_main_exit_status (fs1 fs2 : filesystem) :
  Test.main fs1 fs2
  = match fs1 !! "log.txt", fs2 !! "log.txt" with
    | Some (RegularFile _), Some (RegularFile _) => 0
    | _, _ => 1
    end.
Proof.
  unfold Test.main. rewrite !main_eq.
  by destruct (fs1 !! "log.txt") as [[?| |?]|], (fs2 !! "log.txt") as [[?| |?]|].
Qed.

(** ** The players of all games *)

Lemma elem_of_foldl_players (vs : list Game) (acc : gset string) name :
  name ∈ foldl (λ acc game, acc ∪ list_to_set (players game)) acc vs
  ↔ name ∈ acc ∨ ∃ g, g ∈ vs ∧ name ∈ players g.
Proof.
  revert acc. induction vs as [|g vs IH]; intros acc; cbn [foldl].
  - split; [by left|]. intros [?|(g & []%elem_of_nil & _)]. done.
  - rewrite IH, elem_of_union, elem_of_list_to_set. split.
    + intros [[?|?]|(g' & ? & ?)]; [by left| |].
      * right. exists g. split; [by left|done].
      * right. exists g'. split; [by right|done].
    + intros [?|(g' & [->|?]%elem_of_cons & ?)]; [by left; left|by left; right|].
      right. by exists g'.
Qed.

(** X13: the list that [main] prints as "Players" is sorted, has no
    duplicates, and holds exactly the names that are in [players] of some
    game. *)
Theorem all_players_spec (formatted_results : games_dict) :
  Sorted String.le (all_players_sorted formatted_results)
  ∧ NoDup (all_players_sorted formatted_results)
  ∧ List.length (all_players_sorted formatted_results)
    = size (all_players formatted_results)
  ∧ ∀ name,
      name ∈ all_players_sorted formatted_results
      ↔ ∃ id g, (id, g) ∈ formatted_results ∧ name ∈ players g.
Proof.
  unfold all_players_sorted. split; [apply sorted_Sorted|].
  split. { unfold sorted. rewrite merge_sort_Permutation. apply NoDup_elements. }
  split. { unfold sorted. by rewrite merge_sort_Permutation. }
  intros name. rewrite elem_of_sorted, elem_of_elements.
  unfold all_players. rewrite elem_of_foldl_players, elem_of_empty.
  unfold Dict.values. split.
  - intros [[]|(g & ([id g'] & -> & ?)%list_elem_of_fmap & ?)]. eauto.
  - intros (id & g & ? & ?). right. exists g. split; [|done].
    apply list_elem_of_fmap. by exists (id, g).
Qed.

(** ** Total score of a player *)

Lemma foldl_add_lookup (items : list (string * Z)) (acc : gmap string Z) name :
  NoDup items.*1 →
  foldl (λ acc item, defaultdict_add item.1 item.2 acc) acc items !! name
  = match list_to_map (M := gmap string Z) items !! name with
    | Some v => Some (default 0 (acc !! name) + v)
    | None => acc !! name
    end.
Proof.
  revert acc. induction items as [|[k v] items IH]; intros acc Hnd; [done|].
  apply NoDup_cons in Hnd as [Hk Hnd]. cbn [foldl fst snd list_to_map foldr].
  rewrite IH by done. unfold defaultdict_add.
  assert (list_to_map (M := gmap string Z) items !! k = None) as Hnone
    by by apply not_elem_of_list_to_map_1.
  destruct (decide (k = name)) as [->|Hne].
  - rewrite lookup_insert_eq, Hnone. by rewrite lookup_insert_eq.
  - rewrite !(lookup_insert_ne _ k name) by done. done.
Qed.

Lemma foldl_items_lookup (m acc : gmap string Z) name :
  foldl (λ acc item, defaultdict_add item.1 item.2 acc) acc (map_to_list m) !! name
  = match m !! name with
    | Some v => Some (default 0 (acc !! name) + v)
    | None => acc !! name
    end.
Proof.
  rewrite foldl_add_lookup by apply NoDup_fst_map_to_list.
  by rewrite list_to_map_to_list.
Qed.

Lemma player_total_kills_acc (vs : list Game) (acc : gmap string Z) name :
  let totals :=
    foldl
      (λ acc game,
         foldl (λ acc item, defaultdict_add item.1 item.2 acc) acc
           (map_to_list (kills game)))
      acc vs in
  default 0 (totals !! name)
  = default 0 (acc !! name)
    + foldr (λ game sum, default 0 (kills game !! name) + sum) 0 vs
  ∧ (is_Some (totals !! name)
     ↔ is_Some (acc !! name) ∨ ∃ g, g ∈ vs ∧ is_Some (kills g !! name)).
Proof.
  revert acc. induction vs as [|g vs IH]; intros acc; cbn [foldl foldr].
  - split; [lia|]. split; [by left|]. intros [?|(g & []%elem_of_nil & _)]. done.
  - destruct (IH (foldl (λ acc item, defaultdict_add item.1 item.2 acc) acc
                    (map_to_list (kills g)))) as [-> ->].
    rewrite foldl_items_lookup. destruct (kills g !! name) as [v|] eqn:E.
    + split; [simpl; lia|]. split; [intros _|eauto].
      right. exists g. split; [by left|by rewrite E].
    + split; [simpl; lia|]. split.
      * intros [?|(g' & ? & ?)]; [by left|]. right. exists g'. split; [by right|done].
      * intros [?|(g' & [->|?]%elem_of_cons & Hs)]; [by left| |].
        -- rewrite E in Hs. by destruct Hs.
        -- right. by exists g'.
Qed.

(** X14: [player_total_kills] has an entry for exactly the names that have a
    score in some game, and the entry is the sum of the name's scores over
    the games. *)
Theorem player_total_kills_spec (formatted_results : games_dict) name :
  (is_Some (player_total_kills formatted_results !! name)
   ↔ ∃ id g, (id, g) ∈ formatted_results ∧ is_Some (kills g !! name))
  ∧ default 0 (player_total_kills formatted_results !! name)
    = foldr (λ game sum, default 0 (kills game !! name) + sum) 0
        (Dict.values formatted_results).
Proof.
  destruct (player_total_kills_acc (Dict.values formatted_results) ∅ name)
    as [Hsum Hdom].
  unfold player_total_kills. split.
  - rewrite Hdom, lookup_empty. unfold Dict.values. split.
    + intros [[? ?]|(g & ([id g'] & -> & ?)%list_elem_of_fmap & ?)]; [done|]. eauto.
    + intros (id & g & ? & ?). right. exists g. split; [|done].
      apply list_elem_of_fmap. by exists (id, g).
  - rewrite Hsum, lookup_empty. simpl. lia.
Qed.

(** ** Top players *)

Lemma insert_by_score_perm x l : insert_by_score x l ≡ₚ x :: l.
Proof.
  induction l as [|y l IH]; [done|]. cbn [insert_by_score].
  case_decide; [|done]. by rewrite IH, Permutation_swap.
Qed.

Lemma sorted_by_score_perm items : sorted_by_score items ≡ₚ items.
Proof.
  induction items as [|x items IH]; [done|]. cbn [sorted_by_score foldr].
  rewrite insert_by_score_perm. by f_equiv.
Qed.

Lemma insert_by_score_sorted x l :
  StronglySorted score_ge l → StronglySorted score_ge (insert_by_score x l).
Proof.
  induction l as [|y l IH]; intros Hl; cbn [insert_by_score].
  - repeat constructor.
  - apply StronglySorted_cons in Hl as [Hy Hl]. case_decide as Hxy.
    + apply StronglySorted_cons. split; [|by apply IH].
      rewrite insert_by_score_perm. constructor; [|done].
      unfold score_ge. lia.
    + apply StronglySorted_cons. split; [|by apply StronglySorted_cons].
      constructor; [unfold score_ge; lia|].
      eapply Forall_impl; [exact Hy|]. unfold score_ge. intros z ?. lia.
Qed.

Lemma sorted_by_score_sorted items : StronglySorted score_ge (sorted_by_score items).
Proof.
  induction items as [|x items IH]; [constructor|].
  cbn [sorted_by_score foldr]. by apply insert_by_score_sorted.
Qed.

Lemma filter_insert_by_score v x l :
  StronglySorted score_ge l →
  filter (λ y, y.2 = v) (insert_by_score x l)
  = filter (λ y, y.2 = v) (x :: l).
Proof.
  induction l as [|y l IH]; intros Hl; [done|]. cbn [insert_by_score].
  apply StronglySorted_cons in Hl as [Hy Hl]. case_decide as Hxy; [|done].
  destruct (decide (y.2 = v)) as [Hyv|Hyv].
  - rewrite filter_cons_True by done. rewrite IH by done.
    rewrite (filter_cons_False _ x) by lia.
    rewrite (filter_cons_False _ x) by lia. by rewrite filter_cons_True.
  - rewrite filter_cons_False by done. rewrite IH by done.
    destruct (decide (x.2 = v)).
    + rewrite !(filter_cons_True _ x) by done. by rewrite filter_cons_False.
    + rewrite !(filter_cons_False _ x) by done. by rewrite filter_cons_False.
Qed.

(** X15: the sort behind "Top 5 Players" is stable: it rearranges the items
    by decreasing score, and the items of any one score come out in the
    order they went in. *)
Theorem sorted_by_score_stable (items : list (string * Z)) :
  sorted_by_score items ≡ₚ items
  ∧ StronglySorted (λ x y, (y.2 ≤ x.2)%Z) (sorted_by_score items)
  ∧ ∀ v, filter (λ y, y.2 = v) (sorted_by_score items)
         = filter (λ y, y.2 = v) items.
Proof.
  split; [apply sorted_by_score_perm|].
  split; [apply sorted_by_score_sorted|].
  intros v. induction items as [|x items IH]; [done|].
  cbn [sorted_by_score foldr].
  rewrite filter_insert_by_score by apply sorted_by_score_sorted.
  destruct (decide (x.2 = v)).
  - rewrite !(filter_cons_True _ x) by done. by rewrite <-IH.
  - rewrite !(filter_cons_False _ x) by done. by rewrite <-IH.
Qed.

(** X18: [top_players] are at most five items, all there are when there are
    fewer; they are in order of decreasing score, and no item left out has a
    higher score than one of them. *)
Theorem top_players_spec (items : list (string * Z)) :
  List.length (top_players items) = Nat.min 5 (List.length items)
  ∧ StronglySorted (λ x y, (y.2 ≤ x.2)%Z) (top_players items)
  ∧ ∃ rest,
      (top_players items ++ rest)%list ≡ₚ items
      ∧ ∀ x y, x ∈ top_players items → y ∈ rest → (y.2 ≤ x.2)%Z.
Proof.
  unfold top_players.
  pose proof (sorted_by_score_sorted items) as Hs.
  rewrite <-(take_drop 5 (sorted_by_score items)) in Hs.
  apply StronglySorted_app in Hs as (Hle & Htop & _).
  split. { by rewrite length_take, sorted_by_score_perm. }
  split; [done|].
  exists (drop 5 (sorted_by_score items)).
  split; [by rewrite take_drop, sorted_by_score_perm|].
  intros x y Hx Hy. by apply (Hle x y).
Qed.

(** * Lines without a time stamp *)

Lemma lstrip_head s : stops Chars.isspace (lstrip s).
Proof.
  induction s as [|c s IH]; [done|]. cbn [lstrip].
  by destruct (Chars.isspace c) eqn:E.
Qed.

Lemma rstrip_head s : stops Chars.isspace s → stops Chars.isspace (rstrip s).
Proof.
  destruct s as [|c s]; [done|]. cbn [stops rstrip]. intros Hc.
  destruct (rstrip s); [by rewrite Hc|done].
Qed.

Lemma strip_head s : stops Chars.isspace (strip s).
Proof. apply rstrip_head, lstrip_head. Qed.

(** X19: a line whose first character after white space is not a digit is
    never a kill event: without the time stamp in front, a [Kill:] record is
    skipped like any unrecognised line. *)
Theorem no_timestamp_no_kill line self :
  stops Chars.isdecimal (strip line) →
  contains "InitGame:" line = false →
  re_match kill_pattern (strip line) = None
  ∧ parse_line line self = (Return tt, self).
Proof.
  intros Hd Hm.
  assert (re_match kill_pattern (strip line) = None) as Hk.
  { pose proof (strip_head line) as Hs.
    unfold re_match, match_at, kill_pattern.
    unfold ws_star, ws_plus, digits, word_plus, any_lazy. cbn [run].
    destruct (strip line) as [|c s]; [done|].
    cbn [stops] in Hs, Hd. cbn [rep_greedy]. by rewrite Hs, Hd. }
  split; [done|].
  rewrite parse_line_classify. unfold classify. by rewrite Hm, Hk.
Qed.

Lemma no_timestamp_no_kill_witness :
  re_match kill_pattern (strip "Kill: 1 2 3: Alice killed Bob by MOD_ROCKET") = None
  ∧ parse_line "Kill: 1 2 3: Alice killed Bob by MOD_ROCKET"
      (MkParser [("game_1", new_game)] (Some "game_1") 1)
    = (Return tt, MkParser [("game_1", new_game)] (Some "game_1") 1).
Proof.
  apply (no_timestamp_no_kill "Kill: 1 2 3: Alice killed Bob by MOD_ROCKET");
    reflexivity.
Defined.

(** * Kill lines in the usual layout *)

Lemma app_String c s t : String c s ++ t = String c (s ++ t).
Proof. reflexivity. Qed.

Lemma app_empty_l t : "" ++ t = t.
Proof. reflexivity. Qed.

Lemma string_app_empty_r s : s ++ "" = s.
Proof. induction s as [|c s IH]; [done|]. by rewrite app_String, IH. Qed.

Lemma string_app_assoc s t u : (s ++ t) ++ u = s ++ (t ++ u).
Proof. induction s as [|c s IH]; [done|]. by rewrite !app_String, IH. Qed.

Lemma string_length_app s t :
  String.length (s ++ t) = (String.length s + String.length t)%nat.
Proof.
  induction s as [|c s IH]; [done|]. rewrite app_String. cbn [String.length].
  by rewrite IH.
Qed.

Lemma all_chars_app p s t :
  all_chars p (s ++ t) = all_chars p s && all_chars p t.
Proof.
  induction s as [|c s IH]; [done|]. rewrite app_String. cbn [all_chars].
  by rewrite IH, andb_assoc.
Qed.

Lemma drop_prefix_app t s : drop_prefix t (t ++ s) = Some s.
Proof.
  induction t as [|c t IH]; [done|]. rewrite app_String. cbn [drop_prefix].
  by rewrite decide_True.
Qed.

Lemma substring_middle pre a post :
  String.substring (String.length pre) (String.length a) (pre ++ a ++ post) = a.
Proof.
  induction pre as [|c pre IH].
  - rewrite app_empty_l. cbn [String.length].
    induction a as [|c a IH]; [by destruct post|].
    rewrite app_String. cbn [String.length String.substring]. by rewrite IH.
  - rewrite app_String. cbn [String.length String.substring]. apply IH.
Qed.

Section MatcherSteps.
Context {R : Type}.
Implicit Types (k : nat → string → option R).

Lemma rep_greedy_take cls min pos s1 s2 k r :
  all_chars cls s1 = true → (min ≤ String.length s1)%nat → stops cls s2 →
  k (pos + String.length s1)%nat s2 = Some r →
  rep_greedy cls min pos (s1 ++ s2) k = Some r.
Proof.
  revert min pos. induction s1 as [|c s1 IH]; intros min pos Hall Hmin Hstop Hk.
  - rewrite app_empty_l. cbn [String.length] in *. rewrite Nat.add_0_r in Hk.
    assert (min = 0%nat) as -> by lia.
    destruct s2 as [|c s2]; cbn [rep_greedy]; [done|].
    cbn in Hstop. by rewrite Hstop.
  - rewrite app_String. cbn [rep_greedy all_chars String.length] in *.
    apply andb_prop in Hall as [-> Hall].
    rewrite (IH (Nat.pred min) (S pos)); [done|done|lia|done|].
    by rewrite <-Hk, Nat.add_succ_comm.
Qed.

Lemma rep_greedy_all cls min pos s k r :
  all_chars cls s = true → (min ≤ String.length s)%nat →
  k (pos + String.length s)%nat "" = Some r →
  rep_greedy cls min pos s k = Some r.
Proof.
  intros. rewrite <-(string_app_empty_r s). by apply rep_greedy_take.
Qed.

Lemma rep_greedy_fail cls min pos s k :
  stops cls s → rep_greedy cls (S min) pos s k = None.
Proof.
  destruct s as [|c s]; [done|]. cbn [stops rep_greedy]. by intros ->.
Qed.

Lemma rep_lazy_take0 cls pos s1 s2 k r :
  all_chars cls s1 = true →
  (∀ p q, s1 = p ++ q → q ≠ "" →
          k (pos + String.length p)%nat (q ++ s2) = None) →
  k (pos + String.length s1)%nat s2 = Some r →
  rep_lazy cls 0 pos (s1 ++ s2) k = Some r.
Proof.
  revert pos. induction s1 as [|c s1 IH]; intros pos Hall Hfail Hk.
  - rewrite app_empty_l. cbn [String.length] in *. rewrite Nat.add_0_r in Hk.
    destruct s2; cbn [rep_lazy]; by rewrite Hk.
  - rewrite app_String. cbn [rep_lazy all_chars String.length] in *.
    apply andb_prop in Hall as [-> Hall].
    pose proof (Hfail "" (String c s1) eq_refl) as H0.
    cbn [String.length] in H0. rewrite Nat.add_0_r, app_String in H0.
    rewrite H0 by done.
    apply IH; [done| |by rewrite <-Hk, Nat.add_succ_comm].
    intros p q -> Hq. rewrite <-(Hfail (String c p) q) by done.
    cbn [String.length]. by rewrite Nat.add_succ_comm.
Qed.

Lemma rep_lazy_take cls pos s1 s2 k r :
  s1 ≠ "" → all_chars cls s1 = true →
  (∀ p q, s1 = p ++ q → p ≠ "" → q ≠ "" →
          k (pos + String.length p)%nat (q ++ s2) = None) →
  k (pos + String.length s1)%nat s2 = Some r →
  rep_lazy cls 1 pos (s1 ++ s2) k = Some r.
Proof.
  destruct s1 as [|c s1]; [done|]. intros _ Hall Hfail Hk.
  rewrite app_String. cbn [rep_lazy all_chars String.length Nat.pred] in *.
  apply andb_prop in Hall as [-> Hall].
  apply rep_lazy_take0; [done| |by rewrite <-Hk, Nat.add_succ_comm].
  intros p q -> Hq. rewrite <-(Hfail (String c p) q) by done.
  cbn [String.length]. by rewrite Nat.add_succ_comm.
Qed.
End MatcherSteps.

(** The character classes of the pattern exclude one another as needed. *)
Lemma decimal_not_space c : Chars.isdecimal c = true → Chars.isspace c = false.
Proof. destruct c as [[] [] [] [] [] [] [] []]; by vm_compute. Qed.

Lemma word_not_space c : Chars.isword c = true → Chars.isspace c = false.
Proof. destruct c as [[] [] [] [] [] [] [] []]; by vm_compute. Qed.

Lemma not_space_dot c : Chars.isspace c = false → Chars.isdot c = true.
Proof. destruct c as [[] [] [] [] [] [] [] []]; by vm_compute. Qed.

Lemma all_chars_impl (p q : ascii → bool) s :
  (∀ c, p c = true → q c = true) → all_chars p s = true → all_chars q s = true.
Proof.
  intros Hpq. induction s as [|c s IH]; [done|]. cbn [all_chars].
  intros [?%Hpq ?%IH]%andb_prop. by apply andb_true_intro.
Qed.

Lemma stops_head cls (p : ascii → bool) s t :
  (∀ c, p c = true → cls c = false) → s ≠ "" → all_chars p s = true →
  stops cls (s ++ t).
Proof.
  intros Hp Hne Hs. destruct s as [|c s]; [done|]. rewrite app_String.
  cbn [all_chars stops] in *. apply andb_prop in Hs as [? _]. by apply Hp.
Qed.

Lemma no_space_not_space c : negb (Chars.isspace c) = true → Chars.isspace c = false.
Proof. apply negb_true_iff. Qed.

Lemma nonempty_ne s : nonempty s = true → s ≠ "".
Proof. by destruct s. Qed.

Lemma nonempty_length s : nonempty s = true → (1 ≤ String.length s)%nat.
Proof. destruct s; [done|]. cbn. lia. Qed.

Lemma strip_no_space s : s ≠ "" → no_space s = true → strip s = s.
Proof.
  intros Hne Hs. unfold strip.
  assert (lstrip s = s) as ->.
  { destruct s as [|c s]; [done|]. cbn [lstrip no_space all_chars] in *.
    apply andb_prop in Hs as [->%negb_true_iff _]. done. }
  clear Hne. induction s as [|c s IH]; [done|].
  cbn [rstrip no_space all_chars] in *.
  apply andb_prop in Hs as [Hc%negb_true_iff Hs]. rewrite IH by done.
  destruct s; [by rewrite Hc|done].
Qed.

Lemma stops_space_digits s t :
  nonempty s = true → all_chars Chars.isdecimal s = true →
  stops Chars.isspace (s ++ t).
Proof.
  intros. apply (stops_head _ Chars.isdecimal);
    [apply decimal_not_space|by apply nonempty_ne|done].
Qed.

Lemma stops_app cls s t : s ≠ "" → stops cls s → stops cls (s ++ t).
Proof. by destruct s. Qed.

Lemma substring_in line b e pre a post :
  line = pre ++ a ++ post → b = String.length pre →
  e = (b + String.length a)%nat →
  String.substring b (e - b) line = a.
Proof.
  intros -> -> ->. rewrite Nat.add_comm, Nat.add_sub. apply substring_middle.
Qed.

Lemma lstrip_stops s : stops Chars.isspace s → lstrip s = s.
Proof. destruct s as [|c s]; [done|]. cbn [stops lstrip]. by intros ->. Qed.

Lemma string_app_nonempty s w : w ≠ "" → s ++ w ≠ "".
Proof. by destruct s. Qed.

Lemma rstrip_no_space w : no_space w = true → rstrip w = w.
Proof.
  induction w as [|c w IH]; [done|]. cbn [rstrip no_space all_chars] in *.
  intros [Hc%negb_true_iff Hw]%andb_prop. rewrite IH by done.
  destruct w; [by rewrite Hc|done].
Qed.

Lemma rstrip_app_no_space s w :
  w ≠ "" → no_space w = true → rstrip (s ++ w) = s ++ w.
Proof.
  intros Hne Hw. induction s as [|c s IH]; [by apply rstrip_no_space|].
  rewrite app_String. cbn [rstrip]. rewrite IH.
  pose proof (string_app_nonempty s w Hne). by destruct (s ++ w).
Qed.

Lemma word_no_space w : all_chars Chars.isword w = true → no_space w = true.
Proof.
  apply all_chars_impl. intros c Hc. by apply negb_true_iff, word_not_space.
Qed.

(** ** Names with white space inside *)

Section MatcherFailure.
Context {R : Type}.
Implicit Types (k : nat → string → option R).

(** The greedy repetition fails when the rest of the pattern fails after
    every run it can take. *)
Lemma rep_greedy_none cls min pos s k :
  (∀ w r, s = w ++ r → all_chars cls w = true → (min ≤ String.length w)%nat →
          k (pos + String.length w)%nat r = None) →
  rep_greedy cls min pos s k = None.
Proof.
  revert min pos. induction s as [|c s IH]; intros min pos Hk.
  - cbn [rep_greedy]. destruct min; [|done].
    rewrite <-(Hk "" "" eq_refl eq_refl) by done.
    cbn [String.length]. by rewrite Nat.add_0_r.
  - cbn [rep_greedy].
    assert (match min with
            | O => k pos (String c s)
            | S _ => None
            end = None) as Hstop.
    { destruct min; [|done].
      rewrite <-(Hk "" (String c s) eq_refl eq_refl) by done.
      cbn [String.length]. by rewrite Nat.add_0_r. }
    destruct (cls c) eqn:Hc; [|done].
    rewrite IH; [done|]. intros w r -> Hw Hmin.
    rewrite <-(Hk (String c w) r); cbn [String.length all_chars].
    + by rewrite Nat.add_succ_comm.
    + done.
    + by rewrite Hc.
    + lia.
Qed.
End MatcherFailure.

Lemma no_word_suffix t p q : no_word t (p ++ q) = true → no_word t q = true.
Proof.
  induction p as [|c p IH]; [done|]. rewrite app_String. cbn [no_word].
  intros [_ ?]%andb_prop. by apply IH.
Qed.

Lemma no_word_after_space t w q :
  w ≠ "" → all_chars Chars.isspace w = true → no_word t (w ++ q) = true →
  String.prefix t q = false.
Proof.
  induction w as [|c w IH]; [done|]. intros _. rewrite app_String.
  cbn [all_chars no_word]. intros [Hc Hw]%andb_prop [Hq Hn]%andb_prop.
  destruct w as [|c' w'].
  - rewrite app_empty_l in *. rewrite Hc in Hq. by apply negb_true_iff.
  - by apply IH.
Qed.

Lemma prefix_app_space t q rest :
  no_space t = true → t ≠ "" →
  (∃ c rest', rest = String c rest' ∧ Chars.isspace c = true) →
  String.prefix t (q ++ rest) = true → String.prefix t q = true.
Proof.
  intros Ht Hne (c & rest' & -> & Hc). revert t Ht Hne.
  induction q as [|a q IH]; intros t Ht Hne.
  - rewrite app_empty_l. destruct t as [|b t]; [done|].
    cbn [no_space all_chars] in Ht. apply andb_prop in Ht as [Hb%negb_true_iff _].
    by rewrite prefix_space_head.
  - rewrite app_String. destruct t as [|b t]; [done|]. cbn [String.prefix].
    destruct (ascii_dec b a); [|done].
    cbn [no_space all_chars] in Ht. apply andb_prop in Ht as [_ Ht].
    destruct t as [|b' t']; [by destruct (q ++ String c rest'), q|].
    by apply IH.
Qed.

Lemma rstrip_suffix p q : rstrip (p ++ q) = p ++ q → q ≠ "" → rstrip q = q.
Proof.
  intros Hr Hq. induction p as [|c p IH]; [done|].
  rewrite app_String in Hr. cbn [rstrip] in Hr.
  pose proof (string_app_nonempty p q Hq) as Hne.
  destruct (rstrip (p ++ q)) as [|x y] eqn:E.
  - destruct (Chars.isspace c); [done|]. injection Hr as Hr. by destruct Hne.
  - injection Hr as Hr. by apply IH.
Qed.

Lemma rstrip_not_all_space w : w ≠ "" → all_chars Chars.isspace w = true → rstrip w ≠ w.
Proof. intros Hne Hw. rewrite rstrip_all_space by done. by destruct w. Qed.

(** A white space run at the front of [q ++ rest] stays inside [q] when [q]
    does not end in white space. *)
Lemma space_run_inside q rest w r :
  q ≠ "" → rstrip q = q → q ++ rest = w ++ r →
  all_chars Chars.isspace w = true →
  ∃ q', q = w ++ q' ∧ r = q' ++ rest ∧ q' ≠ "".
Proof.
  revert q. induction w as [|c w IH]; intros q Hne Hq Heq Hw.
  - exists q. by rewrite !app_empty_l in *.
  - destruct q as [|a q]; [done|]. rewrite !app_String in Heq.
    injection Heq as -> Heq. cbn [all_chars] in Hw.
    apply andb_prop in Hw as [Hc Hw].
    destruct (decide (q = "")) as [->|Hq0].
    { cbn [rstrip] in Hq. by rewrite Hc in Hq. }
    destruct (IH q Hq0) as (q' & -> & -> & ?); [|done|done|].
    + by apply (rstrip_suffix (String c "") q).
    + exists q'. by rewrite app_String.
Qed.

Lemma name_word_fail t A p q rest w r :
  no_word t A = true → rstrip A = A → A = p ++ q → q ≠ "" →
  no_space t = true → t ≠ "" →
  (∃ c rest', rest = String c rest' ∧ Chars.isspace c = true) →
  q ++ rest = w ++ r → w ≠ "" → all_chars Chars.isspace w = true →
  drop_prefix t r = None.
Proof.
  intros Hn Hr -> Hq Ht Hne Hrest Heq Hw Hws.
  destruct (space_run_inside q rest w r) as (q' & -> & -> & Hq');
    [done|by apply (rstrip_suffix p)|done|done|].
  apply no_word_suffix in Hn.
  pose proof (no_word_after_space t w q' Hw Hws Hn) as Hpre.
  destruct (drop_prefix t (q' ++ rest)) eqn:E; [|done].
  assert (String.prefix t (q' ++ rest) = true) as Hp
    by (apply drop_prefix_is_Some; eauto).
  apply prefix_app_space in Hp; [congruence|done|done|done].
Qed.

Lemma is_name_facts t s :
  is_name t s = true →
  nonempty s = true ∧ all_chars Chars.isdot s = true ∧ strip s = s
  ∧ rstrip s = s ∧ stops Chars.isspace s ∧ no_word t s = true.
Proof.
  unfold is_name.
  intros [[[Hn Hd]%andb_prop Hs%String.eqb_eq]%andb_prop Hw]%andb_prop.
  assert (stops Chars.isspace s) as Hh by (rewrite <-Hs; apply strip_head).
  split_and!; try done.
  unfold strip in Hs. by rewrite lstrip_stops in Hs.
Qed.

Ltac take_digits s :=
  apply (rep_greedy_take _ _ _ s);
  [done|by apply nonempty_length|exact eq_refl|cbv beta].
Ltac take_space_then tac :=
  apply (rep_greedy_take _ _ _ " "); [done|done|tac|cbv beta].
Ltac take_lit := rewrite drop_prefix_app.
Ltac take_name t s Hword Hrstrip :=
  apply (rep_lazy_take _ _ s);
  [by apply nonempty_ne
  |done
  |let p := fresh "p" in let q := fresh "q" in
   let w := fresh "w" in let r := fresh "r" in
   intros p q ? ? ?; cbv beta; apply rep_greedy_none;
   intros w r ? ? ?; cbv beta;
   match goal with
   | Heq : q ++ ?rest = w ++ r |- _ =>
       rewrite (name_word_fail t s p q rest w r Hword Hrstrip);
       try done;
       first [ by (eexists _, _; split; reflexivity)
             | by (intros ->; cbn in *; lia) ]
   end
  |cbv beta].

Ltac group_is pre a post :=
  unfold group; cbn [m_spans m_string];
  rewrite ?lookup_insert_ne by done; rewrite lookup_insert_eq;
  f_equal; apply (substring_in _ _ _ pre a post);
  [by rewrite ?string_app_assoc, ?string_app_empty_r
  |rewrite ?string_length_app; cbn [String.length]; lia
  |rewrite ?string_length_app; cbn [String.length]; lia].

(** X11: a kill line in the usual layout is recognised with its fields:
    time stamp and ids are digits, the names may hold white space inside
    (but not the word [killed], respectively [by], after it), the weapon is
    [MOD_] and word characters.  The match captures the three ids, and the
    names and the weapon that [_process_kill_event] goes on with are those of
    the line. *)
Theorem kill_line_parsed ts1 ts2 kid vid wid A B W :
  is_digits ts1 = true → is_digits ts2 = true → is_digits kid = true →
  is_digits vid = true → is_digits wid = true →
  is_name "killed" A = true → is_name "by" B = true → is_word W = true →
  ∃ m,
    re_match kill_pattern (strip (kill_line ts1 ts2 kid vid wid A B W)) = Some m
    ∧ group m 1 = Some kid ∧ group m 2 = Some vid ∧ group m 3 = Some wid
    ∧ killer_name m = Some A ∧ victim_name m = Some B
    ∧ weapon m = Some ("MOD_" ++ W).
Proof.
  intros [N1 D1]%andb_prop [N2 D2]%andb_prop [N3 D3]%andb_prop
    [N4 D4]%andb_prop [N5 D5]%andb_prop
    (NA & DA & SA & RA & HA & WA)%is_name_facts
    (NB & DB & SB & RB & HB & WB)%is_name_facts
    [NW WW]%andb_prop.
  assert (strip (kill_line ts1 ts2 kid vid wid A B W)
          = kill_line ts1 ts2 kid vid wid A B W) as ->.
  { unfold strip, kill_line. rewrite lstrip_stops by by apply stops_space_digits.
    pose proof (rstrip_app_no_space
      (ts1 ++ ":" ++ ts2 ++ " " ++ "Kill:" ++ " " ++ kid ++ " " ++ vid
       ++ " " ++ wid ++ ":" ++ " " ++ A ++ " " ++ "killed" ++ " " ++ B
       ++ " " ++ "by" ++ " " ++ "MOD_") W) as Hr.
    rewrite !string_app_assoc in Hr.
    apply Hr; [by apply nonempty_ne|by apply word_no_space]. }
  eexists. split.
  { unfold re_match, match_at, kill_line, kill_pattern.
    unfold ws_star, ws_plus, digits, word_plus, any_lazy. cbn [run].
    apply (rep_greedy_take _ _ _ ""); [done|done|by apply stops_space_digits|].
    cbv beta.
    take_digits ts1. take_lit. take_digits ts2.
    take_space_then ltac:(exact eq_refl). take_lit.
    take_space_then ltac:(by apply stops_space_digits). take_digits kid.
    take_space_then ltac:(by apply stops_space_digits). take_digits vid.
    take_space_then ltac:(by apply stops_space_digits). take_digits wid.
    take_lit.
    take_space_then ltac:(apply stops_app; [by apply nonempty_ne|done]).
    take_name "killed" A WA RA.
    take_space_then ltac:(exact eq_refl). take_lit.
    take_space_then ltac:(apply stops_app; [by apply nonempty_ne|done]).
    take_name "by" B WB RB.
    take_space_then ltac:(exact eq_refl). take_lit.
    take_space_then ltac:(exact eq_refl). take_lit.
    apply rep_greedy_all; [done|by apply nonempty_length|].
    reflexivity. }
  unfold killer_name, victim_name, weapon, kill_line.
  match goal with |- group ?m _ = _ ∧ _ => set (M := m) end.
  assert (group M 4 = Some A) as ->.
  { subst M.
    group_is (ts1 ++ ":" ++ ts2 ++ " " ++ "Kill:" ++ " " ++ kid ++ " " ++ vid
              ++ " " ++ wid ++ ":" ++ " ") A
      (" " ++ "killed" ++ " " ++ B ++ " " ++ "by" ++ " " ++ "MOD_" ++ W). }
  assert (group M 5 = Some B) as ->.
  { subst M.
    group_is (ts1 ++ ":" ++ ts2 ++ " " ++ "Kill:" ++ " " ++ kid ++ " " ++ vid
              ++ " " ++ wid ++ ":" ++ " " ++ A ++ " " ++ "killed" ++ " ") B
      (" " ++ "by" ++ " " ++ "MOD_" ++ W). }
  assert (group M 6 = Some ("MOD_" ++ W)) as ->.
  { subst M.
    group_is (ts1 ++ ":" ++ ts2 ++ " " ++ "Kill:" ++ " " ++ kid ++ " " ++ vid
              ++ " " ++ wid ++ ":" ++ " " ++ A ++ " " ++ "killed" ++ " " ++ B
              ++ " " ++ "by" ++ " ") ("MOD_" ++ W) "". }
  split.
  { subst M.
    group_is (ts1 ++ ":" ++ ts2 ++ " " ++ "Kill:" ++ " ") kid
      (" " ++ vid ++ " " ++ wid ++ ":" ++ " " ++ A ++ " " ++ "killed" ++ " "
       ++ B ++ " " ++ "by" ++ " " ++ "MOD_" ++ W). }
  split.
  { subst M.
    group_is (ts1 ++ ":" ++ ts2 ++ " " ++ "Kill:" ++ " " ++ kid ++ " ") vid
      (" " ++ wid ++ ":" ++ " " ++ A ++ " " ++ "killed" ++ " "
       ++ B ++ " " ++ "by" ++ " " ++ "MOD_" ++ W). }
  split.
  { subst M.
    group_is (ts1 ++ ":" ++ ts2 ++ " " ++ "Kill:" ++ " " ++ kid ++ " " ++ vid
              ++ " ") wid
      (":" ++ " " ++ A ++ " " ++ "killed" ++ " "
       ++ B ++ " " ++ "by" ++ " " ++ "MOD_" ++ W). }
  cbn [fmap option_fmap option_map]. rewrite SA, SB.
  split; [done|]. split; [done|]. f_equal.
  apply strip_no_space; [done|].
  unfold no_space. rewrite all_chars_app. apply andb_true_intro.
  split; [reflexivity|by apply word_no_space].
Qed.

Lemma kill_line_parsed_witness :
  ∃ m,
    re_match kill_pattern
      (strip (kill_line "20" "54" "1022" "2" "22" "<world>" "Dono da Bola"
                "TRIGGER_HURT"))
    = Some m
    ∧ group m 1 = Some "1022" ∧ group m 2 = Some "2" ∧ group m 3 = Some "22"
    ∧ killer_name m = Some "<world>" ∧ victim_name m = Some "Dono da Bola"
    ∧ weapon m = Some ("MOD_" ++ "TRIGGER_HURT").
Proof.
  apply (kill_line_parsed "20" "54" "1022" "2" "22" "<world>" "Dono da Bola"
           "TRIGGER_HURT"); reflexivity.
Defined.
